(** * StaticString: a string with a maximum size known at compile time

    A shallow embedding of [src/util/StaticString.hxx] (XCSoar), the class
    template [StaticStringBase<T, max>] and its two variants [NarrowString]
    and [StaticString], together with the properties its specification
    states about it.

    The buffer is an array of [max] elements.  It is modelled as a list of
    that length; every access goes through [peek] and [poke], which fail
    (return [None]) outside the array, where the C++ program has undefined
    behaviour.  All operations therefore live in the [option] monad. *)

From Stdlib Require Import ZArith NArith Lia Ascii String DecimalString.
From stdpp Require Import base option list numbers.

Local Open Scope nat_scope.

(** ** Elements and memory *)

(** [value_type]: a code unit ([char] or [wchar_t]), by its unsigned value. *)
Abbreviation value_type := N (only parsing).

(** Modelled from the spec: [BasicStringBuffer::SENTINEL] of
    StringBuffer.hxx, the terminator, "a fixed sentinel value (the zero
    element)" (section 3). *)
Definition SENTINEL : value_type := 0%N.

(** An array of code units. *)
Abbreviation store := (list value_type) (only parsing).

(** [*p] as an rvalue. *)
Definition peek (m : store) (p : nat) : option value_type := m !! p.

(** [*p = x]. *)
Definition poke (m : store) (p : nat) (x : value_type) : option store :=
  if decide (p < length m) then Some (<[p:=x]> m) else None.

(** ** [size_t] arithmetic *)

Definition SIZE_BITS : Z := 64.
Definition SIZE_MAX : Z := 2 ^ SIZE_BITS - 1.

(** Unsigned subtraction: [a - b] wraps around below zero. *)
Definition size_sub (a b : nat) : nat :=
  Z.to_nat ((Z.of_nat a - Z.of_nat b) mod 2 ^ SIZE_BITS).

(** ** Primitives the class delegates to

    [StringAPI.hxx], [StringUtil.hpp], [StringFormat.hpp] and [ASCII.hxx]
    are included by the class but are separate files; the primitives below
    are written from what the specification says about them. *)

(** Modelled from the spec: [IsASCII] of ASCII.hxx; the non-ASCII
    elements are those with value >= 128 (section 4.3). *)
Definition IsASCII (c : value_type) : bool := (c <? 128)%N.

(** The scan behind [StringLength], over the cells from the pointer on. *)
Fixpoint scan_length (cells : list value_type) : option nat :=
  match cells with
  | [] => None
  | c :: cells' =>
      if (c =? SENTINEL)%N then Some 0
      else S <$> scan_length cells'
  end.

(** Modelled from the spec: [StringLength] of StringAPI.hxx, "the count of
    elements preceding the first terminator", found by a scan (section 3).
    Scanning past the end of the array is undefined. *)
Definition StringLength (m : store) (p : nat) : option nat :=
  scan_length (drop p m).

(** [std::copy(src.begin(), src.end(), dest)]. *)
Fixpoint copy (m : store) (dest : nat) (src : list value_type) : option store :=
  match src with
  | [] => Some m
  | c :: src' => m' ← poke m dest c; copy m' (S dest) src'
  end.

(** Modelled from the spec: [CopyString] of StringUtil.hpp, the bounded
    copy behind [assign] and [append]: content longer than [dest_size - 1]
    is cut to its first [dest_size - 1] elements, and the terminator is
    written after it (sections 3, 4.6 and "Truncation correctness").
    Returns the pointer to the terminator. *)
Definition CopyString (m : store) (dest dest_size : nat)
    (src : list value_type) : option (nat * store) :=
  let src := if decide (dest_size ≤ length src)
             then take (size_sub dest_size 1) src else src in
  m' ← copy m dest src;
  let p := dest + length src in
  m'' ← poke m' p SENTINEL;
  Some (p, m'').

(** The loop of the bounded [CopyASCII]: it runs while [dest] has not
    reached [dest_end] and the source span is not exhausted, and stores the
    ASCII elements it meets. *)
Fixpoint CopyASCII_span (m : store) (dest dest_end : nat)
    (src : list value_type) : option (nat * store) :=
  match src with
  | [] => Some (dest, m)
  | c :: src' =>
      if decide (dest = dest_end) then Some (dest, m)
      else if IsASCII c
      then m' ← poke m dest c; CopyASCII_span m' (S dest) dest_end src'
      else CopyASCII_span m dest dest_end src'
  end.

(** Modelled from the spec: the bounded [::CopyASCII(dest, dest_size, src,
    src_end)] of StringUtil.hpp, which copies the single-byte (ASCII)
    elements of the source span and stops after [dest_size] elements or at
    the end of the source (section 4.2).  Returns the end of the copy. *)
Definition CopyASCII_bounded (m : store) (dest dest_size : nat)
    (src : list value_type) : option (nat * store) :=
  CopyASCII_span m dest (dest + dest_size) src.

(** The do-while loop of the unbounded [CopyASCII(dest, src)]: the element
    at [src] is read; if it is ASCII it is stored at [dest], which then
    advances; the loop ends after the terminator has been read, and [src]
    advances.  Both pointers are into the same array. *)
Fixpoint CopyASCII_loop (fuel : nat) (m : store) (dest src : nat)
    : option store :=
  match fuel with
  | 0 => None
  | S fuel' =>
      c ← peek m src;
      m' ← (if IsASCII c then poke m dest c else Some m);
      let dest' := if IsASCII c then S dest else dest in
      if (c =? SENTINEL)%N then Some m'
      else CopyASCII_loop fuel' m' dest' (S src)
  end.

(** Modelled from the spec: [CopyASCII(dest, src)] of StringUtil.hpp, which
    "drops every element with value >= 128, shifts remaining elements left
    [...], writes terminator at the new length" (section 4.3).  The source
    pointer advances by one per iteration, so it has left the array after
    [length m - src + 1] iterations at the latest. *)
Definition CopyASCII (m : store) (dest src : nat) : option store :=
  CopyASCII_loop (S (length m - src)) m dest src.

(** Modelled from the spec: [StringIsEqual] of StringAPI.hxx, the
    "terminator-aware element-wise" comparison (section 4.6), over the cells
    from each pointer on. *)
Fixpoint StringIsEqual (a b : list value_type) : option bool :=
  match a, b with
  | x :: a', y :: b' =>
      if (x =? y)%N
      then if (x =? SENTINEL)%N then Some true else StringIsEqual a' b'
      else Some false
  | _, _ => None
  end.

(** *** Formatted output *)

(** What the rendering of a template with its arguments comes to: the full
    text, or an internal error after some partial output. *)
Inductive render_result : Type :=
  | Rendered (text : list value_type)
  | RenderError (partial : list value_type).

Inductive format_arg : Type :=
  | ArgInt (i : Z)
  | ArgString (s : list value_type)
  | ArgChar (c : value_type).

Definition code (a : ascii) : value_type := N_of_ascii a.

(** A string literal, without its terminator. *)
Definition literal (s : string) : list value_type :=
  code <$> list_ascii_of_string s.

Definition decimal (i : Z) : list value_type :=
  literal (NilZero.string_of_int (Z.to_int i)).

Definition emit (pre : list value_type) (r : render_result) : render_result :=
  match r with
  | Rendered text => Rendered (pre ++ text)
  | RenderError partial => RenderError (pre ++ partial)
  end.

(** Modelled from the spec: the substitution of the arguments into the
    template "per directive" (section 4.5), for the directives [%d], [%s],
    [%c] and [%%]; any other directive, or an argument that does not match
    it, is the "invalid template" failure of section 7. *)
Fixpoint render (fmt : list value_type) (args : list format_arg)
    : render_result :=
  match fmt with
  | [] => Rendered []
  | c :: fmt' =>
      if (c =? SENTINEL)%N then Rendered []
      else if (c =? code "%")%N then
        match fmt' with
        | [] => RenderError []
        | d :: fmt'' =>
            if (d =? code "d")%N then
              match args with
              | ArgInt i :: args' => emit (decimal i) (render fmt'' args')
              | _ => RenderError []
              end
            else if (d =? code "s")%N then
              match args with
              | ArgString s :: args' => emit s (render fmt'' args')
              | _ => RenderError []
              end
            else if (d =? code "c")%N then
              match args with
              | ArgChar x :: args' => emit [x] (render fmt'' args')
              | _ => RenderError []
              end
            else if (d =? code "%")%N then emit [d] (render fmt'' args)
            else RenderError []
        end
      else emit [c] (render fmt' args)
  end.

(** The output of a rendering, and the length it reports (negative after
    an internal error). *)
Definition output (r : render_result) : list value_type :=
  match r with
  | Rendered text => text
  | RenderError partial => partial
  end.

Definition reported (r : render_result) : Z :=
  match r with
  | Rendered text => Z.of_nat (length text)
  | RenderError _ => (-1)%Z
  end.

(** Modelled from the spec: [StringFormat] of StringFormat.hpp, that is
    [snprintf] ("Use snprintf() to set the value of this string").  At most
    [size - 1] elements of the output are written at [buffer], followed by
    the terminator; nothing is written when [size] is zero.  The result is
    the length of the full rendering, or negative after an internal error,
    which leaves a terminated partial output (section 4.5). *)
Definition StringFormat (m : store) (buffer size : nat) (r : render_result)
    : option (Z * store) :=
  match size with
  | 0 => Some (reported r, m)
  | S room =>
      let written := take room (output r) in
      m' ← copy m buffer written;
      m'' ← poke m' (buffer + length written) SENTINEL;
      Some (reported r, m'')
  end.

(** Modelled from the spec: [StringFormatUnsafe] of StringFormat.hpp, that
    is [sprintf] ("Use sprintf() to set the value of this string.  WARNING:
    this does not check if the new value fits into the buffer"): the same
    output as [StringFormat], written whole, with the terminator after it
    (section 4.5). *)
Definition StringFormatUnsafe (m : store) (buffer : nat) (r : render_result)
    : option (Z * store) :=
  m' ← copy m buffer (output r);
  m'' ← poke m' (buffer + length (output r)) SENTINEL;
  Some (reported r, m'').

(** The loop of the unbounded [CopyASCII(dest, src)] again, for a source
    string that lies in an array of its own; [src] lists the cells of that
    array from the pointer on. *)
Fixpoint CopyASCII_from (m : store) (dest : nat) (src : list value_type)
    : option store :=
  match src with
  | [] => None
  | c :: src' =>
      m' ← (if IsASCII c then poke m dest c else Some m);
      let dest' := if IsASCII c then S dest else dest in
      if (c =? SENTINEL)%N then Some m'
      else CopyASCII_from m' dest' src'
  end.

(** [p[i]] for a signed offset [i] from the start of the array: an address
    before the array is outside it. *)
Definition peek_at (m : store) (i : Z) : option value_type :=
  if (i <? 0)%Z then None else m !! Z.to_nat i.

(** ** [std::basic_string_view] *)

(** A pointer into the array ([None]: the null pointer of a default
    constructed view) and a size. *)
Record string_view : Type := StringView {
  sv_data : option nat;
  sv_size : nat
}.

(** The elements a view of the array [m] refers to. *)
Definition view_elements (m : store) (v : string_view) : list value_type :=
  match sv_data v with
  | Some p => take (sv_size v) (drop p m)
  | None => []
  end.

(** ** [template<typename T, size_t max> class StaticStringBase] *)

Module StaticStringBase.
Section with_max.

(** The template parameter. *)
Variable max : nat.

(** Modelled from the spec: [capacity()], [data()] and [c_str()] are
    inherited from [BasicStringBuffer] (StringBuffer.hxx): the size of the
    array, "fixed at construction", and "raw read/write access to the
    underlying array" (sections 3 and 4.1), which starts at its first
    element. *)
Definition capacity : nat := max.
Definition data : nat := 0.
Definition c_str : nat := 0.

(** [StaticStringBase() = default]: the defaulted constructor has no body
    and no initialiser.  It stores nothing: the array is left as the
    storage [mem], in which the object is constructed, held it. *)
Definition default_constructed (mem : store) : option store :=
  Some mem.

Definition length (s : store) : option nat :=
  StringLength s c_str.

Definition full (s : store) : option bool :=
  l ← length s;
  Some (bool_decide (size_sub capacity 1 ≤ l)).

(** The [assert] is the precondition; a call that violates it has no
    result. *)
Definition Truncate (new_length : nat) (s : store) : option store :=
  l ← length s;
  if decide (new_length ≤ l) then poke s (data + new_length) SENTINEL
  else None.

(** [SetASCII(src, src_end)]; [src] lists the elements of the span. *)
Definition SetASCII (src : list value_type) (s : store) : option store :=
  '(e, s') ← CopyASCII_bounded s data (size_sub capacity 1) src;
  poke s' e SENTINEL.

(** [SetASCII(src)], for a terminated string in the array [src]: the span
    ends at [src + StringLength(src)]. *)
Definition SetASCII_string (src : store) (s : store) : option store :=
  n ← StringLength src 0;
  SetASCII (take n src) s.

Definition CleanASCII (s : store) : option store :=
  CopyASCII s data c_str.

Definition assign (new_value : list value_type) (s : store) : option store :=
  snd <$> CopyString s data capacity new_value.

(** [explicit StaticStringBase(string_view value)], in the storage [mem]. *)
Definition constructed_from (value : list value_type) (mem : store)
    : option store :=
  assign value mem.

Definition append (new_value : list value_type) (s : store) : option store :=
  len ← length s;
  snd <$> CopyString s (data + len) (size_sub capacity len) new_value.

Definition push_back (ch : value_type) (s : store) : option (bool * store) :=
  l ← length s;
  if decide (size_sub capacity 1 ≤ l) then Some (false, s)
  else
    let p := data + l in
    s' ← poke s p ch;
    s'' ← poke s' (S p) SENTINEL;
    Some (true, s'').

(** [other] lists the cells from the pointer on. *)
Definition equals (s : store) (other : list value_type) : option bool :=
  StringIsEqual (drop c_str s) other.

(** [operator==(const_pointer)] and [operator!=(const_pointer)]. *)
Definition op_eq_pointer (s : store) (value : list value_type)
    : option bool :=
  equals s value.

Definition op_ne_pointer (s : store) (value : list value_type)
    : option bool :=
  negb <$> equals s value.

(** [operator==(const StaticStringBase<T, other_max> &other)] and its
    negation: the other buffer enters through its [c_str()] alone. *)
Definition op_eq (s other : store) : option bool :=
  op_eq_pointer s (drop c_str other).

Definition op_ne (s other : store) : option bool :=
  op_ne_pointer s (drop c_str other).

(** [operator+=(value_type ch)]: returns [*this]. *)
Definition op_add_assign_ch (ch : value_type) (s : store) : option store :=
  '(_, s') ← push_back ch s;
  Some s'.

Definition Format (r : render_result) (s : store)
    : option (string_view * store) :=
  '(s_length, s') ← StringFormat s data capacity r;
  if (s_length <? 0)%Z then Some (StringView None 0, s')
  else
    let length := Z.to_nat s_length in
    let length :=
      if decide (capacity ≤ length) then size_sub capacity 1 else length in
    Some (StringView (Some data) length, s').

Definition AppendFormat (r : render_result) (s : store) : option store :=
  l ← length s;
  snd <$> StringFormat s (data + l) (size_sub capacity l) r.

(** [UnsafeFormat]: no clamp of the length, since nothing is cut. *)
Definition UnsafeFormat (r : render_result) (s : store)
    : option (string_view * store) :=
  '(s_length, s') ← StringFormatUnsafe s data r;
  if (s_length <? 0)%Z then Some (StringView None 0, s')
  else Some (StringView (Some data) (Z.to_nat s_length), s').

(** [UnsafeAppendASCII(p)]; [p] lists the cells of the source string. *)
Definition UnsafeAppendASCII (p : list value_type) (s : store)
    : option store :=
  l ← length s;
  CopyASCII_from s (data + l) p.

(** [buffer()]. *)
Definition buffer : nat := data.

(** [operator[](i) const]: the assert, then the element at index [i]. *)
Definition op_index (i : nat) (s : store) : option value_type :=
  l ← length s;
  if decide (i ≤ l) then peek s (data + i) else None.

(** A store through the reference that the other [operator[](i)] returns:
    [s[i] = x]. *)
Definition op_index_store (i : nat) (x : value_type) (s : store)
    : option store :=
  l ← length s;
  if decide (i ≤ l) then poke s (data + i) x else None.

(** Modelled from the spec: [begin()] is inherited from
    [BasicStringBuffer]; iteration is "over the logical span [0, length)"
    (section 4.1), so it starts at the first element. *)
Definition begin_ : nat := 0.

(** [end()]. *)
Definition end_ (s : store) : option nat :=
  l ← length s;
  Some (begin_ + l).

(** [back()]: [end()[-1]]. *)
Definition back (s : store) : option value_type :=
  e ← end_ s;
  peek_at s (Z.of_nat e + -1).

(** [operator string_view()]: the view of the terminated string at
    [c_str()]. *)
Definition to_string_view (s : store) : option string_view :=
  n ← StringLength s c_str;
  Some (StringView (Some c_str) n).

(** [operator=(string_view)] and [operator+=(string_view)]: both return
    [*this]. *)
Definition op_assign (new_value : list value_type) (s : store)
    : option store :=
  assign new_value s.

Definition op_add_assign (new_value : list value_type) (s : store)
    : option store :=
  append new_value s.

End with_max.
End StaticStringBase.

(** ** [template<size_t max> class StaticString] (the [wchar_t] variant) *)

Module StaticString.

(** "this is a wchar_t string, it's not multi-byte, therefore we have no
    incomplete sequences": the body is empty. *)
Definition CropIncompleteUTF8 (max : nat) (s : store) : option store :=
  Some s.

End StaticString.

(** ** Vocabulary of the specification *)

(** The content of a buffer: the elements before the first terminator. *)
Fixpoint content (cells : list value_type) : list value_type :=
  match cells with
  | [] => []
  | c :: cells' => if (c =? SENTINEL)%N then [] else c :: content cells'
  end.

(** The array [m] with [text] and the terminator after it laid down at
    [dest]; everything else is as in [m]. *)
Definition laid_down (m : store) (dest : nat) (text : list value_type) : store :=
  take dest m ++ text ++ SENTINEL :: drop (S (dest + length text)) m.

(** The invariants of section 3 for a buffer of capacity [max]: the length
    is at most [max - 1] and the element at the length is the terminator. *)
Definition invariant (max : nat) (s : store) : Prop :=
  length s = max ∧
  ∃ l, StaticStringBase.length s = Some l ∧ l ≤ max - 1 ∧
       s !! l = Some SENTINEL.

(** The mutating public operations. *)
Inductive operation : Type :=
  | OpAssign (new_value : list value_type)
  | OpAppend (new_value : list value_type)
  | OpPushBack (ch : value_type)
  | OpTruncate (new_length : nat)
  | OpSetASCII (src : list value_type)
  | OpCleanASCII
  | OpFormat (r : render_result)
  | OpAppendFormat (r : render_result).

Definition perform (max : nat) (op : operation) (s : store) : option store :=
  match op with
  | OpAssign v => StaticStringBase.assign max v s
  | OpAppend v => StaticStringBase.append max v s
  | OpPushBack ch => snd <$> StaticStringBase.push_back max ch s
  | OpTruncate n => StaticStringBase.Truncate n s
  | OpSetASCII src => StaticStringBase.SetASCII max src s
  | OpCleanASCII => StaticStringBase.CleanASCII s
  | OpFormat r => snd <$> StaticStringBase.Format max r s
  | OpAppendFormat r => StaticStringBase.AppendFormat max r s
  end.

(** What a call requires of the buffer it is made on. *)
Definition precondition (op : operation) (s : store) : Prop :=
  match op with
  | OpTruncate n => ∃ l, StaticStringBase.length s = Some l ∧ n ≤ l
  | _ => True
  end.

(** The buffer after each call of a sequence. *)
Fixpoint run (max : nat) (ops : list operation) (s : store)
    : option (list store) :=
  match ops with
  | [] => Some []
  | op :: ops' =>
      s' ← perform max op s;
      (s' ::.) <$> run max ops' s'
  end.

(** Every call of the sequence is made on a buffer that meets its
    precondition. *)
Fixpoint preconditions (max : nat) (ops : list operation) (s : store) : Prop :=
  match ops with
  | [] => True
  | op :: ops' =>
      precondition op s ∧
      ∀ s', perform max op s = Some s' → preconditions max ops' s'
  end.

(** A caller's loop [for (ch : text) s += ch;]. *)
Fixpoint add_each (max : nat) (text : list value_type) (s : store)
    : option store :=
  match text with
  | [] => Some s
  | ch :: text' =>
      s' ← StaticStringBase.op_add_assign_ch max ch s;
      add_each max text' s'
  end.

(** * Properties *)

(** ** Memory and sizes *)

Lemma size_sub_le (a b : nat) :
  b ≤ a → (Z.of_nat a ≤ SIZE_MAX)%Z → size_sub a b = a - b.
Proof.
  intros Hle Hmax. unfold size_sub, SIZE_MAX, SIZE_BITS in *.
  rewrite Z.mod_small by lia. lia.
Qed.

Lemma poke_lt (m : store) (p : nat) (x : value_type) :
  p < length m → poke m p x = Some (<[p:=x]> m).
Proof. intros Hp. unfold poke. by rewrite decide_True. Qed.

Lemma poke_Some (m m' : store) (p : nat) (x : value_type) :
  poke m p x = Some m' → p < length m ∧ m' = <[p:=x]> m.
Proof. unfold poke. case_decide; naive_solver. Qed.

Lemma copy_fits (src : list value_type) (m : store) (dest : nat) :
  dest + length src ≤ length m →
  copy m dest src = Some (take dest m ++ src ++ drop (dest + length src) m).
Proof.
  revert m dest. induction src as [|c src IH]; intros m dest Hfit; simpl in *.
  - by rewrite Nat.add_0_r, take_drop.
  - rewrite poke_lt by lia. simpl.
    rewrite IH by (rewrite length_insert; lia).
    rewrite (take_S_r _ _ c) by (apply list_lookup_insert_eq; lia).
    rewrite take_insert_ge by lia.
    rewrite drop_insert_lt by lia.
    rewrite <- app_assoc. simpl.
    by replace (dest + S (length src)) with (S (dest + length src)) by lia.
Qed.

Lemma copy_terminate (m : store) (dest : nat) (text : list value_type) :
  dest + length text < length m →
  (m' ← copy m dest text; poke m' (dest + length text) SENTINEL)
    = Some (laid_down m dest text).
Proof.
  intros Hfit. rewrite copy_fits by lia. simpl.
  assert (Hlen : length (take dest m ++ text ++ drop (dest + length text) m)
                 = length m).
  { rewrite !length_app, length_take, length_drop. lia. }
  rewrite poke_lt by lia. f_equal.
  rewrite insert_take_drop by lia. unfold laid_down.
  rewrite app_assoc.
  rewrite take_app_length' by (rewrite length_app, length_take; lia).
  rewrite <- app_assoc. do 3 f_equal.
  rewrite drop_app_ge by (rewrite length_app, length_take; lia).
  rewrite length_app, length_take, drop_drop. f_equal. lia.
Qed.

Lemma length_laid_down (m : store) (dest : nat) (text : list value_type) :
  dest + length text < length m → length (laid_down m dest text) = length m.
Proof.
  intros Hfit. unfold laid_down.
  rewrite !length_app, length_take. simpl. rewrite length_drop. lia.
Qed.

Lemma lookup_laid_down (m : store) (dest : nat) (text : list value_type) :
  dest ≤ length m →
  laid_down m dest text !! (dest + length text) = Some SENTINEL.
Proof.
  intros Hfit. unfold laid_down.
  rewrite app_assoc. apply list_lookup_middle.
  rewrite length_app, length_take. lia.
Qed.

(** ** Length and content *)

Lemma content_nonzero (cells : list value_type) :
  Forall (λ c, c ≠ SENTINEL) (content cells).
Proof.
  induction cells as [|c cells IH]; simpl; [constructor|].
  destruct (N.eqb_spec c SENTINEL); by constructor.
Qed.

Lemma scan_length_Some (cells : list value_type) (l : nat) :
  scan_length cells = Some l →
  l = length (content cells) ∧
  cells = content cells ++ SENTINEL :: drop (S l) cells.
Proof.
  revert l. induction cells as [|c cells IH]; intros l; simpl; [done|].
  destruct (N.eqb_spec c SENTINEL) as [->|Hc].
  - intros [= <-]. by rewrite drop_0.
  - destruct (scan_length cells) as [l'|] eqn:Hscan; [|done].
    intros [= <-]. destruct (IH l' eq_refl) as [-> Hsplit].
    split; [done|]. simpl. by rewrite <- Hsplit.
Qed.

Lemma scan_length_app (pre post : list value_type) :
  Forall (λ c, c ≠ SENTINEL) pre →
  scan_length (pre ++ SENTINEL :: post) = Some (length pre).
Proof.
  induction 1 as [|c pre Hc _ IH]; simpl; [done|].
  destruct (N.eqb_spec c SENTINEL); [done|]. by rewrite IH.
Qed.

Lemma content_app (pre post : list value_type) :
  Forall (λ c, c ≠ SENTINEL) pre →
  content (pre ++ SENTINEL :: post) = pre.
Proof.
  induction 1 as [|c pre Hc _ IH]; simpl; [done|].
  destruct (N.eqb_spec c SENTINEL); [done|]. by rewrite IH.
Qed.

Lemma scan_length_terminated (cells : list value_type) (k : nat) :
  cells !! k = Some SENTINEL → ∃ l, scan_length cells = Some l ∧ l ≤ k.
Proof.
  revert k. induction cells as [|c cells IH]; intros k; simpl; [done|].
  destruct (N.eqb_spec c SENTINEL) as [->|Hc].
  - intros _. exists 0. split; [done|lia].
  - destruct k as [|k]; simpl; [by intros [= ?]|].
    intros Hk. destruct (IH k Hk) as (l & -> & Hl).
    exists (S l). split; [done|lia].
Qed.

Lemma scan_length_None (cells : list value_type) :
  Forall (λ c, c ≠ SENTINEL) cells → scan_length cells = None.
Proof.
  induction 1 as [|c cells Hc _ IH]; simpl; [done|].
  destruct (N.eqb_spec c SENTINEL); [done|]. by rewrite IH.
Qed.

Lemma scan_length_take (cells : list value_type) (l : nat) :
  scan_length cells = Some l → take l cells = content cells.
Proof.
  intros [-> Hsplit]%scan_length_Some.
  etrans; [exact (f_equal (take _) Hsplit)|]. apply take_app_length.
Qed.

Lemma length_scan (s : list value_type) :
  StaticStringBase.length s = scan_length s.
Proof. reflexivity. Qed.

(** A buffer of the right size with a terminator anywhere in it satisfies
    the invariants. *)
Lemma invariant_intro (max k : nat) (s : list value_type) :
  length s = max → s !! k = Some SENTINEL → invariant max s.
Proof.
  intros Hlen Hk. split; [done|].
  destruct (scan_length_terminated s k Hk) as (l & Hscan & Hl).
  exists l. split; [done|].
  apply lookup_lt_Some in Hk.
  destruct (scan_length_Some s l Hscan) as [Hl' Hsplit].
  split; [lia|]. rewrite Hsplit, Hl'. by apply list_lookup_middle.
Qed.

(** What the invariants say about the shape of the array. *)
Lemma invariant_shape (max : nat) (s : list value_type) :
  invariant max s →
  length s = max ∧
  StaticStringBase.length s = Some (length (content s)) ∧
  length (content s) < max ∧
  s = content s ++ SENTINEL :: drop (S (length (content s))) s ∧
  take (length (content s)) s = content s.
Proof.
  intros [Hlen (l & Hscan & Hl & Hterm)].
  destruct (scan_length_Some s l Hscan) as [-> Hsplit].
  apply lookup_lt_Some in Hterm. repeat split; [done|done|lia|done|].
  by apply scan_length_take.
Qed.

Lemma invariant_laid_down (m : list value_type) (dest : nat)
    (text : list value_type) :
  dest + length text < length m →
  invariant (length m) (laid_down m dest text).
Proof.
  intros Hfit. apply (invariant_intro _ (dest + length text)).
  - by apply length_laid_down.
  - apply lookup_laid_down. lia.
Qed.

(** ** The primitives *)

Lemma poke_terminator (m : list value_type) (dest : nat)
    (text : list value_type) :
  dest + length text < length m →
  poke (take dest m ++ text ++ drop (dest + length text) m)
       (dest + length text) SENTINEL
    = Some (laid_down m dest text).
Proof.
  intros Hfit. pose proof (copy_terminate m dest text Hfit) as H.
  by rewrite copy_fits in H by lia.
Qed.

Lemma CopyString_fits (m : list value_type) (dest dest_size : nat)
    (src : list value_type) :
  0 < dest_size → dest + dest_size ≤ length m →
  (Z.of_nat dest_size ≤ SIZE_MAX)%Z →
  CopyString m dest dest_size src
    = Some (dest + length (take (dest_size - 1) src),
            laid_down m dest (take (dest_size - 1) src)).
Proof.
  intros Hpos Hfit Hsize. unfold CopyString.
  rewrite size_sub_le by lia.
  assert (Hcut : (if decide (dest_size ≤ length src)
                  then take (dest_size - 1) src else src)
                 = take (dest_size - 1) src).
  { case_decide; [done|]. by rewrite take_ge by lia. }
  rewrite Hcut.
  pose proof (copy_terminate m dest (take (dest_size - 1) src)) as H.
  rewrite length_take in *.
  destruct (copy m dest (take (dest_size - 1) src)) as [m'|]; simpl in *.
  - by rewrite H by lia.
  - by discriminate H; lia.
Qed.

Lemma StringFormat_fits (m : list value_type) (buffer size : nat)
    (r : render_result) :
  0 < size → buffer + size ≤ length m →
  StringFormat m buffer size r
    = Some (reported r, laid_down m buffer (take (size - 1) (output r))).
Proof.
  intros Hpos Hfit. destruct size as [|room]; [lia|].
  unfold StringFormat. replace (S room - 1) with room by lia.
  pose proof (copy_terminate m buffer (take room (output r))) as H.
  rewrite length_take in *.
  destruct (copy m buffer (take room (output r))) as [m'|]; simpl in *.
  - by rewrite H by lia.
  - by discriminate H; lia.
Qed.

Lemma CopyASCII_span_fits (src : list value_type) (m : list value_type)
    (dest dest_end : nat) :
  dest ≤ dest_end → dest_end ≤ length m →
  CopyASCII_span m dest dest_end src
    = Some (dest + length (take (dest_end - dest) (List.filter IsASCII src)),
            take dest m ++ take (dest_end - dest) (List.filter IsASCII src)
              ++ drop (dest + length (take (dest_end - dest)
                                        (List.filter IsASCII src))) m).
Proof.
  revert m dest.
  induction src as [|c src IH]; intros m dest Hle Hend; simpl.
  - rewrite take_nil. simpl. by rewrite Nat.add_0_r, take_drop.
  - case_decide as Hfull.
    + subst dest_end. rewrite Nat.sub_diag, take_0. simpl.
      by rewrite Nat.add_0_r, take_drop.
    + destruct (IsASCII c) eqn:Hc; [|by apply IH].
      replace (dest_end - dest) with (S (dest_end - S dest)) by lia.
      rewrite poke_lt by lia. simpl.
      rewrite IH by (rewrite ?length_insert; lia).
      rewrite (take_S_r _ _ c) by (apply list_lookup_insert_eq; lia).
      rewrite take_insert_ge by lia.
      rewrite drop_insert_lt by lia.
      rewrite <- app_assoc. simpl. do 2 f_equal; [lia|].
      by rewrite Nat.add_succ_r.
Qed.

Lemma CopyASCII_bounded_fits (src : list value_type) (m : list value_type)
    (dest dest_size : nat) :
  dest + dest_size ≤ length m →
  CopyASCII_bounded m dest dest_size src
    = Some (dest + length (take dest_size (List.filter IsASCII src)),
            take dest m ++ take dest_size (List.filter IsASCII src)
              ++ drop (dest + length (take dest_size
                                        (List.filter IsASCII src))) m).
Proof.
  intros Hfit. unfold CopyASCII_bounded.
  rewrite CopyASCII_span_fits by lia.
  by replace (dest + dest_size - dest) with dest_size by lia.
Qed.

(** The loop reads ahead of where it writes, so it filters the text in
    place: the elements it has not read yet are still those of [m]. *)
Lemma CopyASCII_loop_filters (text : list value_type) :
  ∀ (m : list value_type) (dest src fuel : nat) (rest : list value_type),
    dest ≤ src →
    drop src m = text ++ SENTINEL :: rest →
    Forall (λ c, c ≠ SENTINEL) text →
    length text < fuel →
    CopyASCII_loop fuel m dest src
      = Some (laid_down m dest (List.filter IsASCII text)).
Proof.
  induction text as [|c text IH];
    intros m dest src fuel rest Hle Hdrop Hnz Hfuel;
    (destruct fuel as [|fuel]; [simpl in Hfuel; lia|]); simpl in Hfuel.
  - assert (Hsrc : m !! src = Some SENTINEL).
    { by rewrite <- (Nat.add_0_r src), <- lookup_drop, Hdrop. }
    simpl. unfold peek. rewrite Hsrc. simpl.
    apply lookup_lt_Some in Hsrc.
    rewrite poke_lt by lia. simpl. f_equal.
    unfold laid_down. simpl. rewrite Nat.add_0_r.
    apply insert_take_drop. lia.
  - assert (Hsrc : m !! src = Some c).
    { by rewrite <- (Nat.add_0_r src), <- lookup_drop, Hdrop. }
    assert (Hdrop' : drop (S src) m = text ++ SENTINEL :: rest).
    { replace (S src) with (src + 1) by lia. by rewrite <- drop_drop, Hdrop. }
    inversion Hnz as [|? ? Hc Hnz']; subst.
    simpl. unfold peek. rewrite Hsrc. simpl.
    apply lookup_lt_Some in Hsrc.
    destruct (N.eqb_spec c SENTINEL); [done|].
    destruct (IsASCII c) eqn:Hascii.
    + rewrite poke_lt by lia. simpl.
      rewrite (IH _ _ _ _ rest);
        [|lia|by rewrite drop_insert_lt by lia|done|lia].
      f_equal. unfold laid_down.
      rewrite (take_S_r _ _ c) by (apply list_lookup_insert_eq; lia).
      rewrite take_insert_ge by lia. rewrite drop_insert_lt by lia.
      rewrite <- app_assoc. simpl. by rewrite Nat.add_succ_r.
    + simpl. apply (IH _ _ _ _ rest); [lia|done|done|lia].
Qed.

Lemma filter_nonzero (text : list value_type) :
  Forall (λ c, c ≠ SENTINEL) text →
  Forall (λ c, c ≠ SENTINEL) (List.filter IsASCII text).
Proof.
  induction 1 as [|c text Hc _ IH]; simpl; [constructor|].
  destruct (IsASCII c); [by constructor|done].
Qed.

Lemma filter_idempotent (text : list value_type) :
  List.filter IsASCII (List.filter IsASCII text) = List.filter IsASCII text.
Proof.
  induction text as [|c text IH]; simpl; [done|].
  destruct (IsASCII c) eqn:Hc; simpl; [|done]. by rewrite Hc, IH.
Qed.

Lemma filter_all_ascii (text : list value_type) :
  Forall (λ c, (c < 128)%N) text → List.filter IsASCII text = text.
Proof.
  induction 1 as [|c text Hc _ IH]; simpl; [done|].
  unfold IsASCII at 1. destruct (N.ltb_spec c 128); [|lia]. by rewrite IH.
Qed.

Lemma content_laid_down (m : list value_type) (text : list value_type) :
  Forall (λ c, c ≠ SENTINEL) text →
  content (laid_down m 0 text) = text.
Proof. intros Hnz. unfold laid_down. rewrite take_0. by apply content_app. Qed.

Lemma laid_down_again (m : list value_type) (text : list value_type) :
  laid_down (laid_down m 0 text) 0 text = laid_down m 0 text.
Proof.
  unfold laid_down. rewrite !take_0. simpl. do 2 f_equal.
  rewrite drop_app_ge by lia.
  by replace (S (length text) - length text) with 1 by lia.
Qed.

(** ** The operations, one by one *)

Section operations.

Variable max : nat.
Hypothesis max_fits : (Z.of_nat max ≤ SIZE_MAX)%Z.

Implicit Types s : list value_type.

Lemma assign_result s (new_value : list value_type) :
  0 < max → length s = max →
  StaticStringBase.assign max new_value s
    = Some (laid_down s 0 (take (max - 1) new_value)).
Proof.
  intros Hpos Hlen. unfold StaticStringBase.assign.
  unfold StaticStringBase.data, StaticStringBase.capacity.
  by rewrite CopyString_fits by lia.
Qed.

Lemma append_result s (new_value : list value_type) :
  invariant max s →
  StaticStringBase.append max new_value s
    = Some (laid_down s (length (content s))
              (take (max - length (content s) - 1) new_value)).
Proof.
  intros (Hlen & Hscan & Hl & _ & _)%invariant_shape.
  unfold StaticStringBase.append. rewrite Hscan. simpl.
  unfold StaticStringBase.capacity.
  rewrite size_sub_le by lia.
  by rewrite CopyString_fits by lia.
Qed.

Lemma push_back_result s (ch : value_type) :
  invariant max s →
  StaticStringBase.push_back max ch s
    = if decide (length (content s) < max - 1)
      then Some (true, laid_down s (length (content s)) [ch])
      else Some (false, s).
Proof.
  intros (Hlen & Hscan & Hl & _ & Htake)%invariant_shape.
  unfold StaticStringBase.push_back. rewrite Hscan. simpl.
  unfold StaticStringBase.capacity.
  rewrite size_sub_le by lia.
  repeat case_decide; try lia; [done|].
  rewrite poke_lt by lia. simpl.
  rewrite poke_lt by (rewrite length_insert; lia). simpl.
  do 2 f_equal. unfold laid_down.
  rewrite (insert_take_drop (<[_:=_]> s)) by (rewrite length_insert; lia).
  rewrite (take_S_r _ _ ch) by (apply list_lookup_insert_eq; lia).
  rewrite take_insert_ge, drop_insert_lt by lia.
  rewrite <- app_assoc. simpl. by rewrite Nat.add_1_r.
Qed.

Lemma Truncate_result s (new_length : nat) :
  invariant max s → new_length ≤ length (content s) →
  StaticStringBase.Truncate new_length s
    = Some (laid_down s new_length []).
Proof.
  intros (Hlen & Hscan & Hl & _ & _)%invariant_shape Hnew.
  unfold StaticStringBase.Truncate. rewrite Hscan. simpl.
  rewrite decide_True by done.
  rewrite poke_lt by (unfold StaticStringBase.data; lia). f_equal.
  unfold StaticStringBase.data, laid_down. simpl.
  rewrite Nat.add_0_r. apply insert_take_drop. lia.
Qed.

Lemma SetASCII_result s (src : list value_type) :
  0 < max → length s = max →
  StaticStringBase.SetASCII max src s
    = Some (laid_down s 0 (take (max - 1) (List.filter IsASCII src))).
Proof.
  intros Hpos Hlen. unfold StaticStringBase.SetASCII.
  unfold StaticStringBase.data, StaticStringBase.capacity.
  rewrite size_sub_le by lia.
  rewrite CopyASCII_bounded_fits by lia. simpl.
  apply (poke_terminator s 0). rewrite length_take. lia.
Qed.

(** The one-argument overload copies the content of its source string. *)
Lemma SetASCII_string_content s (src : list value_type) (n : nat) :
  StringLength src 0 = Some n →
  StaticStringBase.SetASCII_string max src s
    = StaticStringBase.SetASCII max (content src) s.
Proof.
  intros Hn. unfold StaticStringBase.SetASCII_string. rewrite Hn. simpl.
  by rewrite (scan_length_take src n).
Qed.

Lemma CleanASCII_result s :
  invariant max s →
  StaticStringBase.CleanASCII s
    = Some (laid_down s 0 (List.filter IsASCII (content s))).
Proof.
  intros (Hlen & Hscan & Hl & Hsplit & _)%invariant_shape.
  unfold StaticStringBase.CleanASCII, CopyASCII.
  unfold StaticStringBase.data, StaticStringBase.c_str.
  apply (CopyASCII_loop_filters _ _ _ _ _
           (drop (S (length (content s))) s)).
  - done.
  - by rewrite drop_0.
  - apply content_nonzero.
  - lia.
Qed.

Lemma Format_result s (r : render_result) :
  0 < max → length s = max →
  StaticStringBase.Format max r s
    = Some (if (reported r <? 0)%Z then StringView None 0
            else StringView (Some 0) (min (length (output r)) (max - 1)),
            laid_down s 0 (take (max - 1) (output r))).
Proof.
  intros Hpos Hlen. unfold StaticStringBase.Format.
  unfold StaticStringBase.data, StaticStringBase.capacity.
  rewrite StringFormat_fits by lia. simpl.
  destruct r as [text|partial]; simpl; [|done].
  destruct (Z.ltb_spec (Z.of_nat (length text)) 0); [lia|].
  rewrite Nat2Z.id. do 3 f_equal.
  case_decide; [rewrite size_sub_le by lia|]; lia.
Qed.

Lemma AppendFormat_result s (r : render_result) :
  invariant max s →
  StaticStringBase.AppendFormat max r s
    = Some (laid_down s (length (content s))
              (take (max - length (content s) - 1) (output r))).
Proof.
  intros (Hlen & Hscan & Hl & _ & _)%invariant_shape.
  unfold StaticStringBase.AppendFormat. rewrite Hscan. simpl.
  unfold StaticStringBase.capacity, StaticStringBase.data.
  rewrite size_sub_le by lia.
  by rewrite StringFormat_fits by lia.
Qed.

End operations.

(** ** The bound invariant *)

(** Every call lays some text and its terminator down inside the array, or
    leaves the array alone. *)
Lemma perform_shape (max : nat) (op : operation) (s : list value_type) :
  (Z.of_nat max ≤ SIZE_MAX)%Z → invariant max s → precondition op s →
  perform max op s = Some s ∨
  ∃ dest text, dest + length text < max ∧
               perform max op s = Some (laid_down s dest text).
Proof.
  intros Hfits Hinv Hpre.
  pose proof (invariant_shape max s Hinv) as (Hlen & Hscan & Hl & _ & _).
  destruct op as [v|v|ch|n|src| |r|r]; simpl.
  - right. eexists 0, _. split; [|by apply assign_result; [|lia|]].
    rewrite length_take. lia.
  - right. eexists _, _. split; [|by apply append_result].
    rewrite length_take. lia.
  - rewrite push_back_result by done. case_decide; simpl; [|by left].
    right. eexists _, _. split; [|done]. simpl. lia.
  - destruct Hpre as (l & Hl' & Hn). rewrite Hscan in Hl'.
    injection Hl' as <-.
    right. eexists _, _. split; [|by eapply Truncate_result]. simpl. lia.
  - right. eexists 0, _. split; [|by apply SetASCII_result; [|lia|]].
    rewrite length_take. lia.
  - right. eexists 0, _. split; [|by eapply CleanASCII_result].
    pose proof (List.filter_length_le IsASCII (content s)). simpl. lia.
  - right. rewrite Format_result by (done || lia). simpl.
    eexists 0, _. split; [|done]. rewrite length_take. lia.
  - right. eexists _, _. split; [|by apply AppendFormat_result].
    rewrite length_take. lia.
Qed.

Lemma perform_invariant (max : nat) (op : operation) (s : list value_type) :
  (Z.of_nat max ≤ SIZE_MAX)%Z → invariant max s → precondition op s →
  ∃ s', perform max op s = Some s' ∧ invariant max s'.
Proof.
  intros Hfits Hinv Hpre.
  destruct (perform_shape max op s Hfits Hinv Hpre)
    as [Hsame|(dest & text & Hin & Hlaid)].
  - by exists s.
  - exists (laid_down s dest text). split; [done|].
    destruct Hinv as [Hlen _]. subst max. by apply invariant_laid_down.
Qed.

(** C1.  Bound invariant: for every capacity [max] and every sequence of
    public operations (assign, append, push_back, Truncate with its
    precondition, SetASCII, CleanASCII, Format, AppendFormat) on a buffer
    that satisfies the invariants, every call returns, and after each call
    the length is between 0 and [max - 1] and the element at the length is
    the terminator. *)
Theorem bound_invariant (max : nat) (ops : list operation)
    (s : list value_type) :
  (Z.of_nat max ≤ SIZE_MAX)%Z → invariant max s → preconditions max ops s →
  ∃ states, run max ops s = Some states ∧
            length states = length ops ∧
            Forall (invariant max) states.
Proof.
  intros Hfits. revert s.
  induction ops as [|op ops IH]; intros s Hinv Hpre; simpl in *.
  - exists []. by repeat split.
  - destruct Hpre as [Hpre Hnext].
    destruct (perform_invariant max op s Hfits Hinv Hpre) as (s' & Hs' & Hinv').
    destruct (IH s' Hinv' (Hnext s' Hs')) as (states & Hrun & Hlen & Hall).
    exists (s' :: states). rewrite Hs'. simpl. rewrite Hrun. simpl.
    repeat split; [by rewrite Hlen|by constructor].
Qed.

(** One call of a concrete sequence: its precondition holds, and the
    buffer it leaves is computed. *)
Ltac check_call :=
  split;
  [ first [ exact I | eexists; split; [reflexivity | vm_compute; lia] ]
  | let s' := fresh "s" in
    let H := fresh "H" in
    intros s' H; vm_compute in H; injection H as <- ].

Lemma bound_invariant_witness :
  ∃ states,
    run 4 [OpAssign (literal "abcdef"); OpTruncate 2; OpPushBack 200%N;
           OpAppend (literal "xyz"); OpCleanASCII;
           OpAppendFormat (render (literal "%d") [ArgInt 42]);
           OpSetASCII (literal "hi"); OpFormat (RenderError [1%N])]
        [7; 0; 7; 7]%N
      = Some states ∧
    length states = 8 ∧ Forall (invariant 4) states.
Proof.
  apply bound_invariant.
  - unfold SIZE_MAX, SIZE_BITS. lia.
  - split; [reflexivity|]. exists 1. repeat split; [simpl; lia].
  - repeat check_call. exact I.
Defined.

(** ** Appending *)

(** Text laid down at the current length extends the content. *)
Lemma content_laid_down_end (max : nat) (s text : list value_type) :
  invariant max s → Forall (λ c, c ≠ SENTINEL) text →
  content (laid_down s (length (content s)) text) = content s ++ text.
Proof.
  intros (_ & _ & _ & _ & Htake)%invariant_shape Hnz.
  unfold laid_down. rewrite Htake, app_assoc.
  apply content_app, Forall_app. split; [apply content_nonzero|done].
Qed.

Lemma laid_down_end (max : nat) (s text : list value_type) :
  invariant max s →
  laid_down s (length (content s)) text
    = content s ++ text ++ SENTINEL
        :: drop (S (length (content s) + length text)) s.
Proof.
  intros (_ & _ & _ & _ & Htake)%invariant_shape.
  unfold laid_down. by rewrite Htake.
Qed.

(** C2, as stated, fails: in a buffer of capacity 4 that holds "x", the
    call AppendFormat("%d", 123) does not leave "x1". *)
Lemma AppendFormat_boundary_as_stated_fails :
  ¬ (∀ s s' : list value_type,
       invariant 4 s → content s = literal "x" →
       StaticStringBase.AppendFormat 4
         (render (literal "%d") [ArgInt 123]) s = Some s' →
       content s' = literal "x1").
Proof.
  intros H.
  specialize (H [120; 0; 0; 0]%N [120; 49; 50; 0]%N).
  assert (Hinv : invariant 4 [120; 0; 0; 0]%N).
  { split; [reflexivity|]. exists 1. repeat split. simpl. lia. }
  specialize (H Hinv eq_refl eq_refl). discriminate H.
Qed.

(** C2, amended.  Formatted append boundary: in a buffer of capacity 4
    whose content is "x", AppendFormat("%d", 123) leaves the content "x12":
    the bound passed on is the remaining capacity 3, so two digits are
    written before the terminator, which lands in the last slot. *)
Theorem AppendFormat_boundary (s : list value_type) :
  invariant 4 s → content s = literal "x" →
  ∃ s', StaticStringBase.AppendFormat 4
          (render (literal "%d") [ArgInt 123]) s = Some s' ∧
        content s' = literal "x12" ∧
        StaticStringBase.length s' = Some 3 ∧
        s' = literal "x12" ++ [SENTINEL].
Proof.
  intros Hinv Hx.
  assert (Hfits : (Z.of_nat 4 ≤ SIZE_MAX)%Z)
    by (unfold SIZE_MAX, SIZE_BITS; lia).
  eexists. split; [by apply AppendFormat_result|].
  rewrite Hx. change (take _ (output _)) with [49; 50]%N.
  assert (Hs' : laid_down s (length (literal "x")) [49; 50]%N
                = literal "x12" ++ [SENTINEL]).
  { rewrite <- Hx, (laid_down_end 4) by done. rewrite Hx.
    destruct Hinv as [Hlen _].
    rewrite drop_ge by (simpl; lia). reflexivity. }
  rewrite Hs'. by repeat split.
Qed.

Lemma AppendFormat_boundary_witness :
  ∃ s', StaticStringBase.AppendFormat 4
          (render (literal "%d") [ArgInt 123]) [120; 0; 9; 9]%N = Some s' ∧
        content s' = literal "x12" ∧
        StaticStringBase.length s' = Some 3 ∧
        s' = literal "x12" ++ [SENTINEL].
Proof.
  apply AppendFormat_boundary.
  - split; [reflexivity|]. exists 1. repeat split. simpl. lia.
  - reflexivity.
Defined.

(** C3.  push_back: on a buffer that satisfies the invariants, push_back(ch)
    stores [ch] and the terminator after the content and returns true
    exactly when the length is below [max - 1]; at length [max - 1] it
    returns false and leaves the whole array as it was, and so does every
    further call. *)
Theorem push_back_saturation (max : nat) (s : list value_type)
    (ch : value_type) :
  (Z.of_nat max ≤ SIZE_MAX)%Z → invariant max s →
  (length (content s) < max - 1 →
     ∃ s', StaticStringBase.push_back max ch s = Some (true, s') ∧
           s' = content s ++ ch :: SENTINEL
                  :: drop (length (content s) + 2) s ∧
           (ch ≠ SENTINEL → content s' = content s ++ [ch])) ∧
  (length (content s) = max - 1 →
     StaticStringBase.push_back max ch s = Some (false, s) ∧
     ∀ ch', StaticStringBase.push_back max ch' s = Some (false, s)) ∧
  (∃ ok s', StaticStringBase.push_back max ch s = Some (ok, s') ∧
            (ok = true ↔ length (content s) < max - 1)).
Proof.
  intros Hfits Hinv.
  pose proof (push_back_result max Hfits s) as Hpush.
  split; [|split].
  - intros Hroom. rewrite Hpush, decide_True by done.
    eexists. split; [done|]. split.
    + rewrite (laid_down_end max) by done. simpl.
      by replace (length (content s) + 2)
        with (S (length (content s) + 1)) by lia.
    + intros Hch. apply (content_laid_down_end max); [done|].
      by repeat constructor.
  - intros Hfull. split; [|intros ch'];
      by rewrite Hpush, decide_False by (done || lia).
  - rewrite Hpush by done. case_decide; eexists _, _; (split; [done|]);
      naive_solver.
Qed.

Lemma push_back_saturation_witness :
  (2 < 4 - 1 →
     ∃ s', StaticStringBase.push_back 4 33%N [65; 66; 0; 9]%N
             = Some (true, s') ∧
           s' = [65; 66]%N ++ 33%N :: SENTINEL :: drop (2 + 2) [65; 66; 0; 9]%N ∧
           (33%N ≠ SENTINEL → content s' = [65; 66]%N ++ [33%N])) ∧
  (2 = 4 - 1 →
     StaticStringBase.push_back 4 33%N [65; 66; 0; 9]%N
       = Some (false, [65; 66; 0; 9]%N) ∧
     ∀ ch', StaticStringBase.push_back 4 ch' [65; 66; 0; 9]%N
              = Some (false, [65; 66; 0; 9]%N)) ∧
  (∃ ok s', StaticStringBase.push_back 4 33%N [65; 66; 0; 9]%N
              = Some (ok, s') ∧
            (ok = true ↔ 2 < 4 - 1)).
Proof.
  apply (push_back_saturation 4 [65; 66; 0; 9]%N 33%N).
  - unfold SIZE_MAX, SIZE_BITS. lia.
  - split; [reflexivity|]. exists 2. repeat split. simpl. lia.
Defined.

(** [operator+=(value_type)] is push_back without its result. *)
Lemma op_add_assign_ch_push_back (max : nat) (ch : value_type)
    (s : list value_type) :
  StaticStringBase.op_add_assign_ch max ch s
    = snd <$> StaticStringBase.push_back max ch s.
Proof.
  unfold StaticStringBase.op_add_assign_ch.
  by destruct (StaticStringBase.push_back max ch s) as [[ok s']|].
Qed.

(** C10.  On a full buffer (length [max - 1]), [operator+=(ch)] drops the
    [false] that push_back returns: what the caller gets back is the buffer
    alone, with the whole array as it was. *)
Theorem op_add_assign_ch_full (max : nat) (s : list value_type)
    (ch : value_type) :
  (Z.of_nat max ≤ SIZE_MAX)%Z → invariant max s →
  length (content s) = max - 1 →
  StaticStringBase.push_back max ch s = Some (false, s) ∧
  StaticStringBase.op_add_assign_ch max ch s = Some s.
Proof.
  intros Hfits Hinv Hfull.
  rewrite op_add_assign_ch_push_back, push_back_result by done.
  by rewrite decide_False by lia.
Qed.

Lemma op_add_assign_ch_full_witness :
  StaticStringBase.push_back 4 33%N [65; 66; 67; 0]%N
    = Some (false, [65; 66; 67; 0]%N) ∧
  StaticStringBase.op_add_assign_ch 4 33%N [65; 66; 67; 0]%N
    = Some [65; 66; 67; 0]%N.
Proof.
  apply (op_add_assign_ch_full 4 [65; 66; 67; 0]%N 33%N).
  - unfold SIZE_MAX, SIZE_BITS. lia.
  - split; [reflexivity|]. exists 3. repeat split. simpl. lia.
  - reflexivity.
Defined.

(** ** Truncation *)

(** C6.  Truncate: for every buffer that satisfies the invariants and every
    [new_length] not above the current length, Truncate(new_length) returns
    with the terminator written at index [new_length] and nothing else
    changed, so that the length is [new_length] afterwards. *)
Theorem Truncate_length (max : nat) (s : list value_type) (new_length : nat) :
  invariant max s → new_length ≤ length (content s) →
  ∃ s', StaticStringBase.Truncate new_length s = Some s' ∧
        s' = <[new_length:=SENTINEL]> s ∧
        s' !! new_length = Some SENTINEL ∧
        StaticStringBase.length s' = Some new_length ∧
        content s' = take new_length (content s).
Proof.
  intros Hinv Hnew.
  pose proof (invariant_shape max s Hinv) as (Hlen & _ & Hl & _ & Htake).
  exists (laid_down s new_length []).
  assert (Hcut : take new_length s = take new_length (content s)).
  { rewrite <- Htake, take_take. f_equal. lia. }
  assert (Hnz : Forall (λ c, c ≠ SENTINEL) (take new_length (content s))).
  { apply Forall_take, content_nonzero. }
  assert (Hshape : laid_down s new_length []
                   = take new_length (content s) ++ SENTINEL
                       :: drop (S new_length) s).
  { unfold laid_down. simpl. by rewrite Nat.add_0_r, Hcut. }
  split; [by apply (Truncate_result max)|]. split; [|split; [|split]].
  - unfold laid_down. simpl. rewrite Nat.add_0_r.
    symmetry. apply insert_take_drop. lia.
  - rewrite Hshape. apply list_lookup_middle.
    rewrite length_take. lia.
  - rewrite Hshape, length_scan, scan_length_app by done.
    rewrite length_take. f_equal. lia.
  - rewrite Hshape. by apply content_app.
Qed.

Lemma Truncate_length_witness :
  ∃ s', StaticStringBase.Truncate 1 [65; 66; 67; 0; 9]%N = Some s' ∧
        s' = <[1:=SENTINEL]> [65; 66; 67; 0; 9]%N ∧
        s' !! 1 = Some SENTINEL ∧
        StaticStringBase.length s' = Some 1 ∧
        content s' = take 1 (content [65; 66; 67; 0; 9]%N).
Proof.
  apply (Truncate_length 5 [65; 66; 67; 0; 9]%N 1).
  - split; [reflexivity|]. exists 3. repeat split. simpl. lia.
  - simpl. lia.
Defined.

(** ** Construction *)

(** C9, as stated, fails: after default construction in storage that
    holds other elements, the terminator is not at index 0 and the length is
    not 0. *)
Lemma default_constructed_empty_as_stated_fails :
  ¬ (∀ mem s : list value_type,
       length mem = 3 →
       StaticStringBase.default_constructed mem = Some s →
       s !! 0 = Some SENTINEL ∧ StaticStringBase.length s = Some 0).
Proof.
  intros H.
  destruct (H [7; 8; 9]%N [7; 8; 9]%N eq_refl eq_refl) as [H0 _].
  discriminate H0.
Qed.

(** C9, amended.  Default construction stores nothing: immediately after
    it the array holds what its storage held, so the buffer is empty
    (terminator at index 0, length 0) exactly when the first element of the
    storage was the terminator already; and in storage without any
    terminator, [length()] scans past the end of the array. *)
Theorem default_constructed_keeps_storage (max : nat)
    (mem : list value_type) :
  length mem = max →
  ∃ s, StaticStringBase.default_constructed mem = Some s ∧
       s = mem ∧
       (s !! 0 = Some SENTINEL ∧ StaticStringBase.length s = Some 0
          ↔ mem !! 0 = Some SENTINEL) ∧
       (mem !! 0 = Some SENTINEL → content s = [] ∧ invariant max s) ∧
       (Forall (λ c, c ≠ SENTINEL) mem → StaticStringBase.length s = None).
Proof.
  intros Hlen. exists mem. split; [done|]. split; [done|].
  split; [|split].
  - split; [by intros [H0 _]|].
    destruct mem as [|c mem]; simpl; [done|]. by intros [= ->].
  - intros H0. split; [|by apply (invariant_intro max 0)].
    destruct mem as [|c mem]; simpl in *; [done|]. by injection H0 as ->.
  - intros Hnz. rewrite length_scan. by apply scan_length_None.
Qed.

Lemma default_constructed_keeps_storage_witness :
  ∃ s, StaticStringBase.default_constructed [0; 8; 9]%N = Some s ∧
       s = [0; 8; 9]%N ∧
       (s !! 0 = Some SENTINEL ∧ StaticStringBase.length s = Some 0
          ↔ [0; 8; 9]%N !! 0 = Some SENTINEL) ∧
       ([0; 8; 9]%N !! 0 = Some SENTINEL →
          content s = [] ∧ invariant 3 s) ∧
       (Forall (λ c, c ≠ SENTINEL) [0; 8; 9]%N →
          StaticStringBase.length s = None).
Proof. apply (default_constructed_keeps_storage 3). reflexivity. Defined.

(** The constructor from a view establishes the invariants in any storage
    and keeps what fits of the view. *)
Lemma constructed_from_invariant (max : nat) (value mem : list value_type) :
  (Z.of_nat max ≤ SIZE_MAX)%Z → 0 < max → length mem = max →
  ∃ s, StaticStringBase.constructed_from max value mem = Some s ∧
       invariant max s.
Proof.
  intros Hfits Hpos Hlen. eexists. split; [by apply assign_result|].
  subst max. apply invariant_laid_down. rewrite length_take. lia.
Qed.

(** ** The wide variant *)

(** C7.  For the [wchar_t] variant, CropIncompleteUTF8() does nothing: it
    returns with every element of the array, hence the content and the
    length, as before. *)
Theorem CropIncompleteUTF8_wide_noop (max : nat) (s : list value_type) :
  StaticString.CropIncompleteUTF8 max s = Some s ∧
  ∀ s', StaticString.CropIncompleteUTF8 max s = Some s' →
        (∀ i, s' !! i = s !! i) ∧
        content s' = content s ∧
        StaticStringBase.length s' = StaticStringBase.length s.
Proof. split; [done|]. by intros s' [= <-]. Qed.

(** ** Formatting *)

(** C4.  Format: for every rendering of a template with its arguments,
    Format writes the rendered text into the array from offset 0 and returns
    a view of it; when the full rendering does not fit, the view has exactly
    [max - 1] elements; when the rendering primitive reports a negative
    length, the view is empty. *)
Theorem Format_truncation (max : nat) (r : render_result)
    (s : list value_type) :
  (Z.of_nat max ≤ SIZE_MAX)%Z → 0 < max → length s = max →
  ∃ v s', StaticStringBase.Format max r s = Some (v, s') ∧
          s' = take (max - 1) (output r) ++ SENTINEL
                 :: drop (S (length (take (max - 1) (output r)))) s ∧
          invariant max s' ∧
          (∀ text, r = Rendered text →
             sv_data v = Some 0 ∧
             sv_size v = min (length text) (max - 1) ∧
             view_elements s' v = take (max - 1) text ∧
             (max ≤ length text → sv_size v = max - 1)) ∧
          ((reported r < 0)%Z →
             v = StringView None 0 ∧ view_elements s' v = []).
Proof.
  intros Hfits Hpos Hlen. eexists _, _.
  split; [by apply Format_result|].
  split; [by unfold laid_down; rewrite take_0|].
  split; [|split].
  - subst max. apply invariant_laid_down. rewrite length_take. lia.
  - intros text ->. simpl.
    destruct (Z.ltb_spec (Z.of_nat (length text)) 0); [lia|].
    unfold view_elements. simpl. repeat split; [|lia].
    unfold laid_down. rewrite take_0. simpl.
    apply take_app_length'. rewrite length_take. lia.
  - intros Hneg. by rewrite (proj2 (Z.ltb_lt _ _) Hneg).
Qed.

Lemma Format_truncation_witness :
  ∃ v s', StaticStringBase.Format 4 (render (literal "%d") [ArgInt 12345])
            [9; 9; 9; 9]%N = Some (v, s') ∧
          s' = take (4 - 1) (literal "12345") ++ SENTINEL
                 :: drop (S (length (take (4 - 1) (literal "12345"))))
                      [9; 9; 9; 9]%N ∧
          invariant 4 s' ∧
          (∀ text, render (literal "%d") [ArgInt 12345] = Rendered text →
             sv_data v = Some 0 ∧
             sv_size v = min (length text) (4 - 1) ∧
             view_elements s' v = take (4 - 1) text ∧
             (4 ≤ length text → sv_size v = 4 - 1)) ∧
          ((reported (render (literal "%d") [ArgInt 12345]) < 0)%Z →
             v = StringView None 0 ∧ view_elements s' v = []).
Proof.
  apply (Format_truncation 4 (render (literal "%d") [ArgInt 12345])
           [9; 9; 9; 9]%N).
  - unfold SIZE_MAX, SIZE_BITS. lia.
  - lia.
  - reflexivity.
Defined.

(** ** Comparison *)

Lemma StringIsEqual_content (a : list value_type) :
  ∀ (b rest_a rest_b : list value_type),
    Forall (λ c, c ≠ SENTINEL) a → Forall (λ c, c ≠ SENTINEL) b →
    StringIsEqual (a ++ SENTINEL :: rest_a) (b ++ SENTINEL :: rest_b)
      = Some (bool_decide (a = b)).
Proof.
  induction a as [|x a IH]; intros [|y b] rest_a rest_b Ha Hb; simpl.
  - done.
  - inversion Hb as [|? ? Hy _]; subst.
    destruct y; [by destruct Hy|done].
  - inversion Ha as [|? ? Hx _]; subst.
    destruct x; [by destruct Hx|done].
  - inversion Ha as [|? ? Hx Ha']; inversion Hb as [|? ? Hy Hb']; subst.
    destruct (N.eqb_spec x y) as [->|Hxy].
    + destruct (N.eqb_spec y SENTINEL); [done|].
      rewrite IH by done. f_equal. apply bool_decide_ext. naive_solver.
    + f_equal. symmetry. apply bool_decide_eq_false. naive_solver.
Qed.

(** C5.  Content-only equality: for two buffers of any two capacities that
    satisfy the invariants, [operator==] returns true exactly when the
    elements before the terminator are the same in both; the capacities and
    whatever lies behind the terminators play no part. *)
Theorem op_eq_content (max other_max : nat) (s other : list value_type) :
  invariant max s → invariant other_max other →
  StaticStringBase.op_eq s other
    = Some (bool_decide (content s = content other)) ∧
  StaticStringBase.op_ne s other
    = Some (negb (bool_decide (content s = content other))).
Proof.
  intros (_ & _ & _ & Hs & _)%invariant_shape
         (_ & _ & _ & Ho & _)%invariant_shape.
  unfold StaticStringBase.op_eq, StaticStringBase.op_ne,
    StaticStringBase.op_eq_pointer, StaticStringBase.op_ne_pointer,
    StaticStringBase.equals, StaticStringBase.c_str.
  rewrite !drop_0.
  pose proof (StringIsEqual_content (content s) (content other)
                (drop (S (length (content s))) s)
                (drop (S (length (content other))) other)
                (content_nonzero s) (content_nonzero other)) as Heq.
  rewrite <- Hs, <- Ho in Heq. by rewrite Heq.
Qed.

Lemma op_eq_content_witness :
  StaticStringBase.op_eq
      (literal "abc" ++ [0; 1; 2; 3; 4]%N)
      (literal "abc" ++ [0; 9; 9; 9; 9; 9; 9; 9; 9; 9; 9; 9; 9]%N)
    = Some (bool_decide
              (content (literal "abc" ++ [0; 1; 2; 3; 4]%N)
               = content (literal "abc"
                            ++ [0; 9; 9; 9; 9; 9; 9; 9; 9; 9; 9; 9; 9]%N))) ∧
  StaticStringBase.op_ne
      (literal "abc" ++ [0; 1; 2; 3; 4]%N)
      (literal "abc" ++ [0; 9; 9; 9; 9; 9; 9; 9; 9; 9; 9; 9; 9]%N)
    = Some (negb (bool_decide
              (content (literal "abc" ++ [0; 1; 2; 3; 4]%N)
               = content (literal "abc"
                            ++ [0; 9; 9; 9; 9; 9; 9; 9; 9; 9; 9; 9; 9]%N)))).
Proof.
  apply (op_eq_content 8 16).
  - split; [reflexivity|]. exists 3. repeat split. simpl. lia.
  - split; [reflexivity|]. exists 3. repeat split. simpl. lia.
Defined.

(** ** ASCII filtering *)

(** C8.  CleanASCII is idempotent: on a buffer that satisfies the
    invariants it returns, a second application returns the same array as
    the first, and so the same content; the content it leaves is the old one
    without the elements of value 128 or more, and when there is none of
    those, the buffer is left as it was. *)
Theorem CleanASCII_idempotent (max : nat) (s : list value_type) :
  invariant max s →
  ∃ s1, StaticStringBase.CleanASCII s = Some s1 ∧
        StaticStringBase.CleanASCII s1 = Some s1 ∧
        (StaticStringBase.CleanASCII s ≫= StaticStringBase.CleanASCII)
          = StaticStringBase.CleanASCII s ∧
        content s1 = List.filter IsASCII (content s) ∧
        (Forall (λ c, (c < 128)%N) (content s) →
           s1 = s ∧ content s1 = content s).
Proof.
  intros Hinv.
  pose proof (invariant_shape max s Hinv) as (Hlen & _ & Hl & Hsplit & _).
  pose proof (List.filter_length_le IsASCII (content s)) as Hshort.
  pose proof (filter_nonzero _ (content_nonzero s)) as Hnz.
  set (text := List.filter IsASCII (content s)) in *.
  assert (Hinv1 : invariant max (laid_down s 0 text)).
  { subst max. apply invariant_laid_down. simpl. lia. }
  assert (Hcontent : content (laid_down s 0 text) = text)
    by by apply content_laid_down.
  assert (Hagain : StaticStringBase.CleanASCII (laid_down s 0 text)
                   = Some (laid_down s 0 text)).
  { rewrite (CleanASCII_result max) by done.
    rewrite Hcontent.
    replace (List.filter IsASCII text) with text
      by (symmetry; apply filter_idempotent).
    by rewrite laid_down_again. }
  exists (laid_down s 0 text).
  rewrite (CleanASCII_result max s) by done. fold text.
  repeat split; try done.
  - unfold text. rewrite filter_all_ascii by done.
    unfold laid_down. rewrite take_0. simpl. by rewrite <- Hsplit.
  - rewrite Hcontent. unfold text. by apply filter_all_ascii.
Qed.

Lemma CleanASCII_idempotent_witness :
  ∃ s1, StaticStringBase.CleanASCII [97; 195; 169; 98; 0; 7]%N = Some s1 ∧
        StaticStringBase.CleanASCII s1 = Some s1 ∧
        (StaticStringBase.CleanASCII [97; 195; 169; 98; 0; 7]%N
           ≫= StaticStringBase.CleanASCII)
          = StaticStringBase.CleanASCII [97; 195; 169; 98; 0; 7]%N ∧
        content s1
          = List.filter IsASCII (content [97; 195; 169; 98; 0; 7]%N) ∧
        (Forall (λ c, (c < 128)%N) (content [97; 195; 169; 98; 0; 7]%N) →
           s1 = [97; 195; 169; 98; 0; 7]%N ∧
           content s1 = content [97; 195; 169; 98; 0; 7]%N).
Proof.
  apply (CleanASCII_idempotent 6).
  split; [reflexivity|]. exists 4. repeat split. simpl. lia.
Defined.

(** * Further properties of the class *)

(** ** Reading the array *)

Lemma invariant_lookup (max : nat) (s : list value_type) (i : nat) :
  invariant max s → i < length (content s) → s !! i = content s !! i.
Proof.
  intros (_ & _ & _ & Hsplit & _)%invariant_shape Hi.
  etrans; [exact (f_equal (λ cells, cells !! i) Hsplit)|].
  by apply lookup_app_l.
Qed.

Lemma invariant_terminator (max : nat) (s : list value_type) :
  invariant max s → s !! length (content s) = Some SENTINEL.
Proof.
  intros (_ & _ & _ & Hsplit & _)%invariant_shape.
  etrans; [exact (f_equal (λ cells, cells !! length (content s)) Hsplit)|].
  by apply list_lookup_middle.
Qed.

Lemma content_app_terminator (pre rest : list value_type) :
  content (pre ++ SENTINEL :: rest) = content pre.
Proof.
  induction pre as [|c pre IH]; simpl; [done|].
  destruct (N.eqb_spec c SENTINEL); [done|]. by rewrite IH.
Qed.

Lemma content_id (text : list value_type) :
  Forall (λ c, c ≠ SENTINEL) text → content text = text.
Proof.
  induction 1 as [|c text Hc _ IH]; simpl; [done|].
  destruct (N.eqb_spec c SENTINEL); [done|]. by rewrite IH.
Qed.

(** X1.  [full()] tells whether push_back has room: on a buffer that
    satisfies the invariants, [full()] is true exactly when the length is
    [max - 1], and push_back returns the opposite of [full()]. *)
Theorem full_iff_push_back_fails (max : nat) (s : list value_type)
    (ch : value_type) :
  (Z.of_nat max ≤ SIZE_MAX)%Z → invariant max s →
  ∃ b s', StaticStringBase.full max s = Some b ∧
          StaticStringBase.push_back max ch s = Some (negb b, s') ∧
          (b = true ↔ length (content s) = max - 1).
Proof.
  intros Hfits Hinv.
  pose proof (invariant_shape max s Hinv) as (Hlen & Hscan & Hl & _ & _).
  rewrite push_back_result by done.
  unfold StaticStringBase.full. rewrite Hscan. simpl.
  unfold StaticStringBase.capacity. rewrite size_sub_le by lia.
  case_decide as Hroom.
  - exists false. eexists. rewrite bool_decide_eq_false_2 by lia.
    repeat split; [done|lia].
  - exists true. eexists. rewrite bool_decide_eq_true_2 by lia.
    repeat split; lia.
Qed.

Lemma full_iff_push_back_fails_witness :
  ∃ b s', StaticStringBase.full 3 [65; 66; 0]%N = Some b ∧
          StaticStringBase.push_back 3 33%N [65; 66; 0]%N
            = Some (negb b, s') ∧
          (b = true ↔ length (content [65; 66; 0]%N) = 3 - 1).
Proof.
  apply (full_iff_push_back_fails 3 [65; 66; 0]%N 33%N).
  - unfold SIZE_MAX, SIZE_BITS. lia.
  - split; [reflexivity|]. exists 2. repeat split. simpl. lia.
Defined.

(** X2.  Indexing within the assertion: on a buffer that satisfies the
    invariants, [operator[](i)] yields the i-th element of the content,
    which is not the terminator, for [i] below the length, and the
    terminator for [i] equal to the length; an index above the length
    violates the assertion. *)
Theorem op_index_within (max : nat) (s : list value_type) (i : nat) :
  invariant max s →
  (i < length (content s) →
     ∃ c, StaticStringBase.op_index i s = Some c ∧
          content s !! i = Some c ∧ c ≠ SENTINEL) ∧
  (i = length (content s) →
     StaticStringBase.op_index i s = Some SENTINEL) ∧
  (length (content s) < i → StaticStringBase.op_index i s = None).
Proof.
  intros Hinv.
  pose proof (invariant_shape max s Hinv) as (_ & Hscan & _ & _ & _).
  unfold StaticStringBase.op_index, StaticStringBase.data, peek.
  rewrite Hscan. simpl. split; [|split].
  - intros Hi. rewrite decide_True by lia.
    destruct (lookup_lt_is_Some_2 (content s) i Hi) as [c Hc].
    exists c. rewrite (invariant_lookup max) by done.
    repeat split; [done|done|].
    by apply (Forall_lookup_1 _ _ _ _ (content_nonzero s) Hc).
  - intros ->. rewrite decide_True by lia. by apply (invariant_terminator max).
  - intros Hi. by rewrite decide_False by lia.
Qed.

Lemma op_index_within_witness :
  (1 < length (content [65; 66; 0; 9]%N) →
     ∃ c, StaticStringBase.op_index 1 [65; 66; 0; 9]%N = Some c ∧
          content [65; 66; 0; 9]%N !! 1 = Some c ∧ c ≠ SENTINEL) ∧
  (1 = length (content [65; 66; 0; 9]%N) →
     StaticStringBase.op_index 1 [65; 66; 0; 9]%N = Some SENTINEL) ∧
  (length (content [65; 66; 0; 9]%N) < 1 →
     StaticStringBase.op_index 1 [65; 66; 0; 9]%N = None).
Proof.
  apply (op_index_within 4).
  split; [reflexivity|]. exists 2. repeat split. simpl. lia.
Defined.

(** X3.  [back()] reads the element before the terminator: on a buffer
    that satisfies the invariants and is not empty it yields the last
    element of the content; on an empty buffer the element it reads lies
    before the array. *)
Theorem back_last (max : nat) (s : list value_type) :
  invariant max s →
  (content s ≠ [] →
     ∃ c, StaticStringBase.back s = Some c ∧ list.last (content s) = Some c) ∧
  (content s = [] → StaticStringBase.back s = None).
Proof.
  intros Hinv.
  pose proof (invariant_shape max s Hinv) as (_ & Hscan & _ & _ & _).
  unfold StaticStringBase.back, StaticStringBase.end_,
    StaticStringBase.begin_, peek_at.
  rewrite Hscan. simpl. split.
  - intros Hne.
    assert (Hpos : 0 < length (content s)).
    { destruct (content s); [done|simpl; lia]. }
    destruct (Z.ltb_spec (Z.of_nat (length (content s)) + -1) 0); [lia|].
    replace (Z.to_nat (Z.of_nat (length (content s)) + -1))
      with (pred (length (content s))) by lia.
    rewrite (invariant_lookup max) by (done || lia).
    rewrite <- last_lookup.
    destruct (list.last (content s)) as [c|] eqn:Hlast; [by exists c|].
    by apply last_None in Hlast.
  - by intros ->.
Qed.

Lemma back_last_witness :
  (content [65; 66; 0; 9]%N ≠ [] →
     ∃ c, StaticStringBase.back [65; 66; 0; 9]%N = Some c ∧
          list.last (content [65; 66; 0; 9]%N) = Some c) ∧
  (content [65; 66; 0; 9]%N = [] →
     StaticStringBase.back [65; 66; 0; 9]%N = None).
Proof.
  apply (back_last 4).
  split; [reflexivity|]. exists 2. repeat split. simpl. lia.
Defined.

(** X4.  Storing through [operator[]]: on a buffer that satisfies the
    invariants, storing an element other than the terminator at an index
    below the length replaces that element of the content and nothing else;
    but the assertion also admits the index of the terminator itself, and on
    a full buffer such a store leaves the array without a terminator, so
    that [length()] then scans past its end. *)
Theorem op_index_store_effect (max : nat) (s : list value_type) (i : nat)
    (x : value_type) :
  invariant max s → x ≠ SENTINEL →
  (i < length (content s) →
     ∃ s', StaticStringBase.op_index_store i x s = Some s' ∧
           s' = <[i:=x]> s ∧
           content s' = <[i:=x]> (content s) ∧
           invariant max s') ∧
  (i = length (content s) → length (content s) = max - 1 →
     ∃ s', StaticStringBase.op_index_store i x s = Some s' ∧
           s' = content s ++ [x] ∧
           StaticStringBase.length s' = None).
Proof.
  intros Hinv Hx.
  pose proof (invariant_shape max s Hinv)
    as (Hlen & Hscan & Hl & Hsplit & Htake).
  unfold StaticStringBase.op_index_store, StaticStringBase.data.
  rewrite Hscan. simpl. split.
  - intros Hi. rewrite decide_True, poke_lt by lia.
    eexists. split; [done|]. split; [done|].
    assert (Hs' : <[i:=x]> s
                  = <[i:=x]> (content s) ++ SENTINEL
                      :: drop (S (length (content s))) s).
    { etrans; [exact (f_equal (λ cells, <[i:=x]> cells) Hsplit)|].
      by apply insert_app_l. }
    split.
    + rewrite Hs'. apply content_app, Forall_insert; [|done].
      apply content_nonzero.
    + apply (invariant_intro _ (length (content s))).
      * by rewrite length_insert.
      * rewrite list_lookup_insert_ne by lia.
        by apply (invariant_terminator max).
  - intros -> Hfull. rewrite decide_True, poke_lt by lia.
    eexists. split; [done|].
    assert (Hs' : <[length (content s):=x]> s = content s ++ [x]).
    { rewrite insert_take_drop, Htake by lia.
      by rewrite drop_ge by lia. }
    split; [done|]. rewrite Hs', length_scan.
    apply scan_length_None, Forall_app. split; [apply content_nonzero|].
    by repeat constructor.
Qed.

Lemma op_index_store_effect_witness :
  (2 < length (content [65; 66; 67; 0]%N) →
     ∃ s', StaticStringBase.op_index_store 2 33%N [65; 66; 67; 0]%N
             = Some s' ∧
           s' = <[2:=33%N]> [65; 66; 67; 0]%N ∧
           content s' = <[2:=33%N]> (content [65; 66; 67; 0]%N) ∧
           invariant 4 s') ∧
  (2 = length (content [65; 66; 67; 0]%N) →
   length (content [65; 66; 67; 0]%N) = 4 - 1 →
     ∃ s', StaticStringBase.op_index_store 2 33%N [65; 66; 67; 0]%N
             = Some s' ∧
           s' = content [65; 66; 67; 0]%N ++ [33%N] ∧
           StaticStringBase.length s' = None).
Proof.
  apply (op_index_store_effect 4).
  - split; [reflexivity|]. exists 3. repeat split. simpl. lia.
  - done.
Defined.

(** ** Assigning and appending *)

Lemma laid_down_extend (s a b : list value_type) (d : nat) :
  d ≤ length s →
  laid_down (laid_down s d a) (d + length a) b = laid_down s d (a ++ b).
Proof.
  intros Hd. unfold laid_down at 1 3.
  assert (Hpre : length (take d s ++ a) = d + length a)
    by (rewrite length_app, length_take; lia).
  assert (Hshape : laid_down s d a
                   = (take d s ++ a) ++ SENTINEL
                       :: drop (S (d + length a)) s)
    by (unfold laid_down; by rewrite <- app_assoc).
  rewrite Hshape, take_app_length' by done.
  rewrite <- !app_assoc. do 3 f_equal.
  rewrite !app_assoc, drop_app_ge by lia.
  rewrite Hpre, length_app.
  replace (S (d + length a + length b) - (d + length a))
    with (S (length b)) by lia.
  simpl. rewrite drop_drop.
  by replace (S (d + length a) + length b)
    with (S (d + (length a + length b))) by lia.
Qed.

Lemma laid_down_nothing (max : nat) (s : list value_type) :
  invariant max s → laid_down s (length (content s)) [] = s.
Proof.
  intros Hinv. rewrite (laid_down_end max) by done. simpl.
  rewrite Nat.add_0_r.
  by destruct (invariant_shape max s Hinv) as (_ & _ & _ & <- & _).
Qed.

Lemma content_app_nonzero (a b : list value_type) :
  Forall (λ c, c ≠ SENTINEL) a → content (a ++ b) = a ++ content b.
Proof.
  induction 1 as [|c a Hc _ IH]; simpl; [done|].
  destruct (N.eqb_spec c SENTINEL); [done|]. by rewrite IH.
Qed.

(** X5.  Construction from a view and [assign] do not depend on what the
    storage held: for any array of [max] elements, they return a buffer
    that satisfies the invariants and whose content is the first [max - 1]
    elements of the value, cut at its first terminator if it has one; a
    value without terminator that is shorter than [max] is kept whole. *)
Theorem assign_any_storage (max : nat) (value mem : list value_type) :
  (Z.of_nat max ≤ SIZE_MAX)%Z → 0 < max → length mem = max →
  ∃ s, StaticStringBase.constructed_from max value mem = Some s ∧
       StaticStringBase.op_assign max value mem = Some s ∧
       invariant max s ∧
       content s = content (take (max - 1) value) ∧
       (Forall (λ c, c ≠ SENTINEL) value →
          content s = take (max - 1) value ∧
          (length value < max → content s = value)).
Proof.
  intros Hfits Hpos Hlen.
  exists (laid_down mem 0 (take (max - 1) value)).
  split; [by apply assign_result|]. split; [by apply assign_result|].
  split; [|split].
  - subst max. apply invariant_laid_down. rewrite length_take. lia.
  - unfold laid_down. rewrite take_0. apply content_app_terminator.
  - intros Hnz.
    assert (Hcontent : content (laid_down mem 0 (take (max - 1) value))
                       = take (max - 1) value)
      by by apply content_laid_down, Forall_take.
    split; [done|]. intros Hshort. by rewrite Hcontent, take_ge by lia.
Qed.

Lemma assign_any_storage_witness :
  ∃ s, StaticStringBase.constructed_from 4 (literal "hello") [7; 7; 7; 7]%N
         = Some s ∧
       StaticStringBase.op_assign 4 (literal "hello") [7; 7; 7; 7]%N
         = Some s ∧
       invariant 4 s ∧
       content s = content (take (4 - 1) (literal "hello")) ∧
       (Forall (λ c, c ≠ SENTINEL) (literal "hello") →
          content s = take (4 - 1) (literal "hello") ∧
          (length (literal "hello") < 4 → content s = literal "hello")).
Proof.
  apply (assign_any_storage 4).
  - unfold SIZE_MAX, SIZE_BITS. lia.
  - lia.
  - reflexivity.
Defined.

(** X6.  [append] keeps what is there: on a buffer that satisfies the
    invariants it returns a buffer that satisfies them, whose content is the
    old content followed by as much of the new value as fits in the
    [max - 1 - length] elements left (cut at its first terminator); on a
    full buffer the array is left as it was. *)
Theorem append_content (max : nat) (s new_value : list value_type) :
  (Z.of_nat max ≤ SIZE_MAX)%Z → invariant max s →
  ∃ s', StaticStringBase.op_add_assign max new_value s = Some s' ∧
        invariant max s' ∧
        content s'
          = content s
              ++ content (take (max - 1 - length (content s)) new_value) ∧
        (length (content s) = max - 1 → s' = s).
Proof.
  intros Hfits Hinv.
  pose proof (invariant_shape max s Hinv) as (Hlen & _ & Hl & _ & _).
  eexists. split; [by apply append_result|].
  replace (max - length (content s) - 1)
    with (max - 1 - length (content s)) by lia.
  split; [|split].
  - subst max. apply invariant_laid_down. rewrite length_take. lia.
  - rewrite (laid_down_end max) by done.
    rewrite content_app_nonzero by apply content_nonzero.
    by rewrite content_app_terminator.
  - intros Hfull. rewrite Hfull, Nat.sub_diag, take_0, <- Hfull.
    by apply (laid_down_nothing max).
Qed.

Lemma append_content_witness :
  ∃ s', StaticStringBase.op_add_assign 4 (literal "xyz") [65; 0; 9; 9]%N
          = Some s' ∧
        invariant 4 s' ∧
        content s'
          = content [65; 0; 9; 9]%N
              ++ content (take (4 - 1 - length (content [65; 0; 9; 9]%N))
                            (literal "xyz")) ∧
        (length (content [65; 0; 9; 9]%N) = 4 - 1 → s' = [65; 0; 9; 9]%N).
Proof.
  apply (append_content 4).
  - unfold SIZE_MAX, SIZE_BITS. lia.
  - split; [reflexivity|]. exists 1. repeat split. simpl. lia.
Defined.

(** X7.  [assign] followed by [append] is [assign] of the concatenation:
    for a first value without terminator, the two calls leave the same
    array as the one call would, truncation included. *)
Theorem assign_append_concat (max : nat) (v w s : list value_type) :
  (Z.of_nat max ≤ SIZE_MAX)%Z → 0 < max → length s = max →
  Forall (λ c, c ≠ SENTINEL) v →
  (StaticStringBase.assign max v s ≫= StaticStringBase.append max w)
    = StaticStringBase.assign max (v ++ w) s.
Proof.
  intros Hfits Hpos Hlen Hnz.
  rewrite !assign_result by done. simpl.
  assert (Hinv : invariant max (laid_down s 0 (take (max - 1) v))).
  { subst max. apply invariant_laid_down. rewrite length_take. lia. }
  rewrite append_result by done.
  rewrite content_laid_down by by apply Forall_take.
  rewrite (laid_down_extend s (take (max - 1) v) _ 0) by lia.
  rewrite take_app, length_take.
  by replace (max - (max - 1) `min` length v - 1)
    with (max - 1 - length v) by lia.
Qed.

Lemma assign_append_concat_witness :
  (StaticStringBase.assign 6 (literal "ab") [7; 7; 7; 7; 7; 7]%N
     ≫= StaticStringBase.append 6 (literal "cdefg"))
    = StaticStringBase.assign 6 (literal "ab" ++ literal "cdefg")
        [7; 7; 7; 7; 7; 7]%N.
Proof.
  apply (assign_append_concat 6).
  - unfold SIZE_MAX, SIZE_BITS. lia.
  - lia.
  - reflexivity.
  - by repeat constructor.
Defined.

(** X8.  Appending element by element is [append]: for a text without
    terminator, the loop of [operator+=(ch)] over its elements leaves the
    same array as one [append] of the text; the elements that no longer fit
    are dropped without notice in both. *)
Theorem add_each_append (max : nat) (text s : list value_type) :
  (Z.of_nat max ≤ SIZE_MAX)%Z → invariant max s →
  Forall (λ c, c ≠ SENTINEL) text →
  add_each max text s = StaticStringBase.append max text s.
Proof.
  intros Hfits Hinv Hnz. revert s Hinv.
  induction Hnz as [|ch text Hch _ IH]; intros s Hinv.
  - rewrite append_result by done. simpl. rewrite take_nil.
    by rewrite (laid_down_nothing max).
  - pose proof (invariant_shape max s Hinv) as (Hlen & _ & Hl & _ & _).
    simpl. rewrite op_add_assign_ch_push_back, push_back_result by done.
    rewrite append_result by done.
    case_decide as Hroom; simpl.
    + assert (Hinv' : invariant max (laid_down s (length (content s)) [ch])).
      { subst max. apply invariant_laid_down. simpl. lia. }
      rewrite IH, append_result by done.
      rewrite (content_laid_down_end max) by (done || by repeat constructor).
      rewrite length_app. simpl.
      rewrite (laid_down_extend s [ch]) by lia.
      replace (max - length (content s) - 1)
        with (S (max - (length (content s) + 1) - 1)) by lia.
      done.
    + replace (max - length (content s) - 1) with 0 in * by lia.
      rewrite IH, append_result by done.
      by replace (max - length (content s) - 1) with 0 by lia.
Qed.

Lemma add_each_append_witness :
  add_each 4 (literal "bcde") [65; 0; 9; 9]%N
    = StaticStringBase.append 4 (literal "bcde") [65; 0; 9; 9]%N.
Proof.
  apply add_each_append.
  - unfold SIZE_MAX, SIZE_BITS. lia.
  - split; [reflexivity|]. exists 1. repeat split. simpl. lia.
  - by repeat constructor.
Defined.

(** ** Formatting, checked and unchecked *)

(** X9.  The checked formatters are the copies of their output: [Format]
    leaves the array that [assign] of the rendering's output leaves, and
    [AppendFormat] the array that [append] of it leaves, whether the
    rendering succeeded or failed. *)
Theorem Format_as_assign (max : nat) (r : render_result)
    (s : list value_type) :
  (Z.of_nat max ≤ SIZE_MAX)%Z → invariant max s →
  snd <$> StaticStringBase.Format max r s
    = StaticStringBase.assign max (output r) s ∧
  StaticStringBase.AppendFormat max r s
    = StaticStringBase.append max (output r) s.
Proof.
  intros Hfits Hinv.
  pose proof (invariant_shape max s Hinv) as (Hlen & _ & Hl & _ & _).
  rewrite Format_result, assign_result by (done || lia).
  by rewrite AppendFormat_result, append_result by done.
Qed.

Lemma Format_as_assign_witness :
  snd <$> StaticStringBase.Format 4
            (render (literal "%s!") [ArgString (literal "abc")])
            [65; 0; 9; 9]%N
    = StaticStringBase.assign 4
        (output (render (literal "%s!") [ArgString (literal "abc")]))
        [65; 0; 9; 9]%N ∧
  StaticStringBase.AppendFormat 4
      (render (literal "%s!") [ArgString (literal "abc")]) [65; 0; 9; 9]%N
    = StaticStringBase.append 4
        (output (render (literal "%s!") [ArgString (literal "abc")]))
        [65; 0; 9; 9]%N.
Proof.
  apply (Format_as_assign 4).
  - unfold SIZE_MAX, SIZE_BITS. lia.
  - split; [reflexivity|]. exists 1. repeat split. simpl. lia.
Defined.

(** X10.  The view that [Format] returns is the buffer's new content: for
    a successful rendering without terminator in it, the view starts at
    [data()], its size is the new [length()], its elements are the content,
    and it is the view that the conversion to [string_view] gives. *)
Theorem Format_view_is_content (max : nat) (text s : list value_type) :
  (Z.of_nat max ≤ SIZE_MAX)%Z → 0 < max → length s = max →
  Forall (λ c, c ≠ SENTINEL) text →
  ∃ v s', StaticStringBase.Format max (Rendered text) s = Some (v, s') ∧
          StaticStringBase.length s' = Some (sv_size v) ∧
          view_elements s' v = content s' ∧
          StaticStringBase.to_string_view s' = Some v.
Proof.
  intros Hfits Hpos Hlen Hnz.
  eexists _, _. split; [by apply Format_result|]. simpl.
  destruct (Z.ltb_spec (Z.of_nat (length text)) 0); [lia|]. simpl.
  assert (Hcut : Forall (λ c, c ≠ SENTINEL) (take (max - 1) text))
    by by apply Forall_take.
  assert (Hscan : scan_length (laid_down s 0 (take (max - 1) text))
                  = Some (min (length text) (max - 1))).
  { unfold laid_down. rewrite take_0. simpl.
    rewrite scan_length_app, length_take by done. f_equal. lia. }
  split; [done|]. split.
  - unfold view_elements. simpl. rewrite content_laid_down by done.
    unfold laid_down. rewrite take_0. simpl.
    apply take_app_length'. rewrite length_take. lia.
  - unfold StaticStringBase.to_string_view, StringLength,
      StaticStringBase.c_str.
    by rewrite drop_0, Hscan.
Qed.

Lemma Format_view_is_content_witness :
  ∃ v s', StaticStringBase.Format 4 (Rendered (literal "hello"))
            [7; 7; 7; 7]%N = Some (v, s') ∧
          StaticStringBase.length s' = Some (sv_size v) ∧
          view_elements s' v = content s' ∧
          StaticStringBase.to_string_view s' = Some v.
Proof.
  apply (Format_view_is_content 4).
  - unfold SIZE_MAX, SIZE_BITS. lia.
  - lia.
  - reflexivity.
  - by repeat constructor.
Defined.

Lemma copy_length (src : list value_type) :
  ∀ (m m' : list value_type) (dest : nat),
    copy m dest src = Some m' → length m' = length m.
Proof.
  induction src as [|c src IH]; intros m m' dest; simpl.
  - by intros [= <-].
  - destruct (poke m dest c) as [m1|] eqn:Hpoke; simpl; [|done].
    apply poke_Some in Hpoke as [_ ->]. intros ->%IH.
    by rewrite length_insert.
Qed.

Lemma copy_terminate_outside (m : list value_type) (dest : nat)
    (text : list value_type) :
  length m ≤ dest + length text →
  (m' ← copy m dest text; poke m' (dest + length text) SENTINEL) = None.
Proof.
  intros Hout.
  destruct (copy m dest text) as [m'|] eqn:Hcopy; simpl; [|done].
  apply copy_length in Hcopy. unfold poke. by rewrite decide_False by lia.
Qed.

(** X11.  [UnsafeFormat] is [Format] without the bound: when the output of
    the rendering is shorter than [max], both return the same view and the
    same array; when it is not, [UnsafeFormat] stores outside the array. *)
Theorem UnsafeFormat_unchecked (max : nat) (r : render_result)
    (s : list value_type) :
  (Z.of_nat max ≤ SIZE_MAX)%Z → 0 < max → length s = max →
  (length (output r) < max →
     StaticStringBase.UnsafeFormat r s = StaticStringBase.Format max r s ∧
     is_Some (StaticStringBase.UnsafeFormat r s)) ∧
  (max ≤ length (output r) → StaticStringBase.UnsafeFormat r s = None).
Proof.
  intros Hfits Hpos Hlen. unfold StaticStringBase.UnsafeFormat,
    StringFormatUnsafe, StaticStringBase.data.
  split.
  - intros Hshort. rewrite Format_result by done.
    pose proof (copy_terminate s 0 (output r)) as Hcopy. simpl in Hcopy.
    destruct (copy s 0 (output r)) as [m'|]; simpl in *;
      [|by discriminate Hcopy; lia].
    rewrite Hcopy by lia. simpl.
    rewrite (take_ge (output r)) by lia.
    destruct r as [text|partial]; simpl in *; [|by eauto].
    destruct (Z.ltb_spec (Z.of_nat (length text)) 0); [lia|].
    rewrite Nat2Z.id. replace (min (length text) (max - 1))
      with (length text) by lia.
    by eauto.
  - intros Hlong.
    pose proof (copy_terminate_outside s 0 (output r)) as Hcopy.
    simpl in Hcopy.
    destruct (copy s 0 (output r)) as [m'|]; simpl in *; [|done].
    by rewrite Hcopy by lia.
Qed.

Lemma UnsafeFormat_unchecked_witness :
  (length (output (Rendered (literal "abcd"))) < 4 →
     StaticStringBase.UnsafeFormat (Rendered (literal "abcd")) [7; 7; 7; 7]%N
       = StaticStringBase.Format 4 (Rendered (literal "abcd"))
           [7; 7; 7; 7]%N ∧
     is_Some (StaticStringBase.UnsafeFormat (Rendered (literal "abcd"))
                [7; 7; 7; 7]%N)) ∧
  (4 ≤ length (output (Rendered (literal "abcd"))) →
     StaticStringBase.UnsafeFormat (Rendered (literal "abcd")) [7; 7; 7; 7]%N
       = None).
Proof.
  apply (UnsafeFormat_unchecked 4).
  - unfold SIZE_MAX, SIZE_BITS. lia.
  - lia.
  - reflexivity.
Defined.

(** ** ASCII copies *)

Lemma CopyASCII_from_fits (text : list value_type) :
  ∀ (m rest : list value_type) (dest : nat),
    Forall (λ c, c ≠ SENTINEL) text →
    dest + length (List.filter IsASCII text) < length m →
    CopyASCII_from m dest (text ++ SENTINEL :: rest)
      = Some (laid_down m dest (List.filter IsASCII text)).
Proof.
  induction text as [|c text IH]; intros m rest dest Hnz Hfit; simpl in *.
  - rewrite poke_lt by lia. simpl. f_equal.
    unfold laid_down. simpl. rewrite Nat.add_0_r.
    apply insert_take_drop. lia.
  - inversion Hnz as [|? ? Hc Hnz']; subst.
    destruct (N.eqb_spec c SENTINEL); [done|].
    destruct (IsASCII c) eqn:Hascii; simpl in *.
    + rewrite poke_lt by lia. simpl.
      rewrite IH by (rewrite ?length_insert; done || lia).
      f_equal. unfold laid_down.
      rewrite (take_S_r _ _ c) by (apply list_lookup_insert_eq; lia).
      rewrite take_insert_ge by lia. rewrite drop_insert_lt by lia.
      rewrite <- app_assoc. simpl. by rewrite Nat.add_succ_r.
    + by apply IH.
Qed.

Lemma CopyASCII_from_outside (text : list value_type) :
  ∀ (m rest : list value_type) (dest : nat),
    Forall (λ c, c ≠ SENTINEL) text →
    length m ≤ dest + length (List.filter IsASCII text) →
    CopyASCII_from m dest (text ++ SENTINEL :: rest) = None.
Proof.
  induction text as [|c text IH]; intros m rest dest Hnz Hout; simpl in *.
  - unfold poke. by rewrite decide_False by lia.
  - inversion Hnz as [|? ? Hc Hnz']; subst.
    destruct (N.eqb_spec c SENTINEL); [done|].
    destruct (IsASCII c) eqn:Hascii; simpl in *; [|by apply IH].
    unfold poke. case_decide; simpl; [|done].
    apply IH; [done|]. rewrite length_insert. lia.
Qed.

(** X12.  [UnsafeAppendASCII] appends without looking at the capacity: for
    a terminated source string, when its ASCII elements fit behind the
    content it leaves the array that [append] of those elements leaves;
    when they do not, it stores outside the array. *)
Theorem UnsafeAppendASCII_unchecked (max : nat)
    (s text rest : list value_type) :
  (Z.of_nat max ≤ SIZE_MAX)%Z → invariant max s →
  Forall (λ c, c ≠ SENTINEL) text →
  (length (content s) + length (List.filter IsASCII text) < max →
     StaticStringBase.UnsafeAppendASCII (text ++ SENTINEL :: rest) s
       = StaticStringBase.append max (List.filter IsASCII text) s ∧
     is_Some (StaticStringBase.UnsafeAppendASCII
                (text ++ SENTINEL :: rest) s)) ∧
  (max ≤ length (content s) + length (List.filter IsASCII text) →
     StaticStringBase.UnsafeAppendASCII (text ++ SENTINEL :: rest) s = None).
Proof.
  intros Hfits Hinv Hnz.
  pose proof (invariant_shape max s Hinv) as (Hlen & Hscan & Hl & _ & _).
  unfold StaticStringBase.UnsafeAppendASCII, StaticStringBase.data.
  rewrite Hscan. simpl. split.
  - intros Hroom. rewrite CopyASCII_from_fits by (done || lia).
    rewrite append_result by done.
    rewrite take_ge by lia. by eauto.
  - intros Hout. apply CopyASCII_from_outside; [done|lia].
Qed.

Lemma UnsafeAppendASCII_unchecked_witness :
  (length (content [65; 0; 9; 9]%N)
     + length (List.filter IsASCII [98; 200; 99]%N) < 4 →
     StaticStringBase.UnsafeAppendASCII ([98; 200; 99]%N ++ SENTINEL :: [5]%N)
         [65; 0; 9; 9]%N
       = StaticStringBase.append 4 (List.filter IsASCII [98; 200; 99]%N)
           [65; 0; 9; 9]%N ∧
     is_Some (StaticStringBase.UnsafeAppendASCII
                ([98; 200; 99]%N ++ SENTINEL :: [5]%N) [65; 0; 9; 9]%N)) ∧
  (4 ≤ length (content [65; 0; 9; 9]%N)
         + length (List.filter IsASCII [98; 200; 99]%N) →
     StaticStringBase.UnsafeAppendASCII ([98; 200; 99]%N ++ SENTINEL :: [5]%N)
         [65; 0; 9; 9]%N = None).
Proof.
  apply (UnsafeAppendASCII_unchecked 4).
  - unfold SIZE_MAX, SIZE_BITS. lia.
  - split; [reflexivity|]. exists 1. repeat split. simpl. lia.
  - by repeat constructor.
Defined.

(** X13.  [SetASCII] is [assign] of the ASCII elements: for any storage of
    [max] elements, [SetASCII] over a span leaves the array that [assign]
    of the span without its elements of value 128 or more leaves, and the
    one-argument overload does so for the content of its source string. *)
Theorem SetASCII_as_assign (max : nat) (src s : list value_type) :
  (Z.of_nat max ≤ SIZE_MAX)%Z → 0 < max → length s = max →
  StaticStringBase.SetASCII max src s
    = StaticStringBase.assign max (List.filter IsASCII src) s ∧
  (Forall (λ c, (c < 128)%N) src →
     StaticStringBase.SetASCII max src s
       = StaticStringBase.assign max src s) ∧
  (∀ n, StringLength src 0 = Some n →
     StaticStringBase.SetASCII_string max src s
       = StaticStringBase.assign max (List.filter IsASCII (content src)) s).
Proof.
  intros Hfits Hpos Hlen.
  rewrite SetASCII_result, assign_result by done.
  split; [done|]. split.
  - intros Hascii. by rewrite assign_result, filter_all_ascii by done.
  - intros n Hn. rewrite (SetASCII_string_content max s src n) by done.
    by rewrite SetASCII_result, assign_result by done.
Qed.

Lemma SetASCII_as_assign_witness :
  StaticStringBase.SetASCII 4 [97; 195; 169; 98; 99; 100]%N [7; 7; 7; 7]%N
    = StaticStringBase.assign 4
        (List.filter IsASCII [97; 195; 169; 98; 99; 100]%N) [7; 7; 7; 7]%N ∧
  (Forall (λ c, (c < 128)%N) [97; 195; 169; 98; 99; 100]%N →
     StaticStringBase.SetASCII 4 [97; 195; 169; 98; 99; 100]%N [7; 7; 7; 7]%N
       = StaticStringBase.assign 4 [97; 195; 169; 98; 99; 100]%N
           [7; 7; 7; 7]%N) ∧
  (∀ n, StringLength [97; 195; 169; 98; 99; 100]%N 0 = Some n →
     StaticStringBase.SetASCII_string 4 [97; 195; 169; 98; 99; 100]%N
         [7; 7; 7; 7]%N
       = StaticStringBase.assign 4
           (List.filter IsASCII (content [97; 195; 169; 98; 99; 100]%N))
           [7; 7; 7; 7]%N).
Proof.
  apply (SetASCII_as_assign 4).
  - unfold SIZE_MAX, SIZE_BITS. lia.
  - lia.
  - reflexivity.
Defined.

(** ** Growing and shrinking *)

(** X14.  A successful push_back is undone by [Truncate] to the old
    length: the two calls return, and the content is the old content
    again. *)
Theorem push_back_Truncate (max : nat) (s : list value_type)
    (ch : value_type) :
  (Z.of_nat max ≤ SIZE_MAX)%Z → invariant max s →
  length (content s) < max - 1 →
  ∃ s1 s2,
    StaticStringBase.push_back max ch s = Some (true, s1) ∧
    StaticStringBase.Truncate (length (content s)) s1 = Some s2 ∧
    content s2 = content s ∧
    invariant max s2.
Proof.
  intros Hfits Hinv Hroom.
  pose proof (invariant_shape max s Hinv) as (Hlen & _ & Hl & _ & Htake).
  assert (Hinv1 : invariant max (laid_down s (length (content s)) [ch])).
  { subst max. apply invariant_laid_down. simpl. lia. }
  assert (Hcontent1 : content (laid_down s (length (content s)) [ch])
                      = content s ++ content [ch]).
  { rewrite (laid_down_end max) by done.
    rewrite content_app_nonzero by apply content_nonzero.
    by rewrite (content_app_terminator [ch]). }
  eexists _, _. split; [by rewrite push_back_result, decide_True by done|].
  split.
  { apply (Truncate_result max); [done|]. rewrite Hcontent1, length_app. lia. }
  assert (Hs2 : laid_down (laid_down s (length (content s)) [ch])
                  (length (content s)) []
                = content s ++ SENTINEL
                    :: drop (S (length (content s)))
                         (laid_down s (length (content s)) [ch])).
  { unfold laid_down at 1. simpl. rewrite Nat.add_0_r. f_equal.
    rewrite (laid_down_end max) by done.
    by rewrite take_app_length. }
  split.
  - rewrite Hs2. apply content_app, content_nonzero.
  - apply (invariant_intro _ (length (content s))).
    + rewrite !length_laid_down; simpl; rewrite ?length_laid_down;
        simpl; lia.
    + rewrite Hs2. by apply list_lookup_middle.
Qed.

Lemma push_back_Truncate_witness :
  ∃ s1 s2,
    StaticStringBase.push_back 4 33%N [65; 0; 9; 9]%N = Some (true, s1) ∧
    StaticStringBase.Truncate (length (content [65; 0; 9; 9]%N)) s1
      = Some s2 ∧
    content s2 = content [65; 0; 9; 9]%N ∧
    invariant 4 s2.
Proof.
  apply (push_back_Truncate 4).
  - unfold SIZE_MAX, SIZE_BITS. lia.
  - split; [reflexivity|]. exists 1. repeat split. simpl. lia.
  - simpl. lia.
Defined.

(** X15.  [Truncate] at the current length changes nothing, and a second
    [Truncate] to a shorter length gives the content that the shorter one
    alone gives. *)
Theorem Truncate_compose (max : nat) (s : list value_type) (n m : nat) :
  invariant max s → m ≤ n → n ≤ length (content s) →
  StaticStringBase.Truncate (length (content s)) s = Some s ∧
  ∃ s1 s2 s3,
    StaticStringBase.Truncate n s = Some s1 ∧
    StaticStringBase.Truncate m s1 = Some s2 ∧
    StaticStringBase.Truncate m s = Some s3 ∧
    content s2 = content s3 ∧
    content s2 = take m (content s).
Proof.
  intros Hinv Hmn Hn.
  pose proof (invariant_shape max s Hinv) as (Hlen & _ & Hl & _ & Htake).
  assert (Hcut : ∀ k, k ≤ length (content s) →
            content (laid_down s k []) = take k (content s) ∧
            invariant max (laid_down s k [])).
  { intros k Hk. split.
    - unfold laid_down. simpl.
      replace (take k s) with (take k (content s))
        by (rewrite <- Htake, take_take; f_equal; lia).
      apply content_app, Forall_take, content_nonzero.
    - subst max. apply invariant_laid_down. simpl. lia. }
  split.
  { rewrite (Truncate_result max) by done.
    by rewrite (laid_down_nothing max). }
  destruct (Hcut n Hn) as [Hc1 Hinv1].
  destruct (Hcut m ltac:(lia)) as [Hc3 _].
  eexists _, _, _.
  split; [by apply (Truncate_result max)|].
  split.
  { apply (Truncate_result max); [done|].
    rewrite Hc1, length_take. lia. }
  split; [by apply (Truncate_result max); [|lia]|].
  assert (Hc2 : content (laid_down (laid_down s n []) m [])
                = take m (content s)).
  { unfold laid_down at 1. simpl.
    replace (take m (laid_down s n [])) with (take m (content s)).
    - apply content_app, Forall_take, content_nonzero.
    - unfold laid_down. simpl. rewrite take_app_le
        by (rewrite length_take; lia).
      rewrite take_take. rewrite <- Htake, take_take. f_equal. lia. }
  by rewrite Hc2, Hc3.
Qed.

Lemma Truncate_compose_witness :
  StaticStringBase.Truncate (length (content [65; 66; 67; 0; 9]%N))
      [65; 66; 67; 0; 9]%N = Some [65; 66; 67; 0; 9]%N ∧
  ∃ s1 s2 s3,
    StaticStringBase.Truncate 2 [65; 66; 67; 0; 9]%N = Some s1 ∧
    StaticStringBase.Truncate 1 s1 = Some s2 ∧
    StaticStringBase.Truncate 1 [65; 66; 67; 0; 9]%N = Some s3 ∧
    content s2 = content s3 ∧
    content s2 = take 1 (content [65; 66; 67; 0; 9]%N).
Proof.
  apply (Truncate_compose 5).
  - split; [reflexivity|]. exists 3. repeat split. simpl. lia.
  - lia.
  - simpl. lia.
Defined.

(** ** Copying between buffers and comparing *)

Lemma take_all_iff (text : list value_type) (n : nat) :
  take n text = text ↔ length text ≤ n.
Proof.
  split.
  - intros Heq. apply (f_equal length) in Heq.
    rewrite length_take in Heq. lia.
  - apply take_ge.
Qed.

(** X16.  Copying a buffer into one of another capacity through its
    [string_view], then comparing: the view of a buffer that satisfies the
    invariants holds its content; [assign] of it into any storage of [max_b]
    elements keeps the first [max_b - 1] elements; and [operator==] between
    the copy and the original is true exactly when the content fitted. *)
Theorem assign_view_compare (max_a max_b : nat) (a b : list value_type) :
  (Z.of_nat max_b ≤ SIZE_MAX)%Z → invariant max_a a →
  0 < max_b → length b = max_b →
  ∃ v b',
    StaticStringBase.to_string_view a = Some v ∧
    view_elements a v = content a ∧
    StaticStringBase.assign max_b (view_elements a v) b = Some b' ∧
    content b' = take (max_b - 1) (content a) ∧
    StaticStringBase.op_eq b' a
      = Some (bool_decide (length (content a) < max_b)).
Proof.
  intros Hfits Hinv Hpos Hlen.
  pose proof (invariant_shape max_a a Hinv)
    as (_ & Hscan & _ & Hsplit & Htake).
  assert (Hnz : Forall (λ c, c ≠ SENTINEL) (take (max_b - 1) (content a)))
    by apply Forall_take, content_nonzero.
  exists (StringView (Some 0) (length (content a))). eexists.
  split.
  { unfold StaticStringBase.to_string_view, StringLength,
      StaticStringBase.c_str.
    rewrite drop_0. rewrite length_scan in Hscan. by rewrite Hscan. }
  assert (Hview : view_elements a
                    (StringView (Some 0) (length (content a))) = content a).
  { unfold view_elements. simpl. by rewrite drop_0. }
  split; [done|]. rewrite Hview.
  split; [by apply assign_result|].
  split; [by apply content_laid_down|].
  unfold StaticStringBase.op_eq, StaticStringBase.op_eq_pointer,
    StaticStringBase.equals, StaticStringBase.c_str.
  rewrite !drop_0.
  pose proof (StringIsEqual_content (take (max_b - 1) (content a))
                (content a)
                (drop (S (0 + length (take (max_b - 1) (content a)))) b)
                (drop (S (length (content a))) a)
                Hnz (content_nonzero a)) as Heq.
  rewrite <- Hsplit in Heq. unfold laid_down. rewrite take_0. simpl in *.
  rewrite Heq. f_equal. apply bool_decide_ext.
  rewrite take_all_iff. lia.
Qed.

Lemma assign_view_compare_witness :
  ∃ v b',
    StaticStringBase.to_string_view (literal "abc" ++ [0; 5; 5; 5; 5]%N)
      = Some v ∧
    view_elements (literal "abc" ++ [0; 5; 5; 5; 5]%N) v
      = content (literal "abc" ++ [0; 5; 5; 5; 5]%N) ∧
    StaticStringBase.assign 3
        (view_elements (literal "abc" ++ [0; 5; 5; 5; 5]%N) v) [7; 7; 7]%N
      = Some b' ∧
    content b'
      = take (3 - 1) (content (literal "abc" ++ [0; 5; 5; 5; 5]%N)) ∧
    StaticStringBase.op_eq b' (literal "abc" ++ [0; 5; 5; 5; 5]%N)
      = Some (bool_decide
                (length (content (literal "abc" ++ [0; 5; 5; 5; 5]%N)) < 3)).
Proof.
  apply (assign_view_compare 8 3).
  - unfold SIZE_MAX, SIZE_BITS. lia.
  - split; [reflexivity|]. exists 3. repeat split. simpl. lia.
  - lia.
  - reflexivity.
Defined.

(** X17.  Comparing with a string after [assign]: for a value without
    terminator assigned into any storage of [max] elements, [operator==]
    against the terminated string of that value is true exactly when the
    value was shorter than [max], that is, when nothing was cut off, and
    [operator!=] is its negation. *)
Theorem equals_after_assign (max : nat) (value s rest : list value_type) :
  (Z.of_nat max ≤ SIZE_MAX)%Z → 0 < max → length s = max →
  Forall (λ c, c ≠ SENTINEL) value →
  ∃ s', StaticStringBase.assign max value s = Some s' ∧
        StaticStringBase.op_eq_pointer s' (value ++ SENTINEL :: rest)
          = Some (bool_decide (length value < max)) ∧
        StaticStringBase.op_ne_pointer s' (value ++ SENTINEL :: rest)
          = Some (negb (bool_decide (length value < max))).
Proof.
  intros Hfits Hpos Hlen Hnz.
  eexists. split; [by apply assign_result|].
  unfold StaticStringBase.op_eq_pointer, StaticStringBase.op_ne_pointer,
    StaticStringBase.equals, StaticStringBase.c_str.
  rewrite drop_0. unfold laid_down. rewrite take_0. simpl.
  rewrite StringIsEqual_content by (done || by apply Forall_take).
  assert (Hiff : bool_decide (take (max - 1) value = value)
                 = bool_decide (length value < max)).
  { apply bool_decide_ext. rewrite take_all_iff. lia. }
  by rewrite Hiff.
Qed.

Lemma equals_after_assign_witness :
  ∃ s', StaticStringBase.assign 4 (literal "abcd") [7; 7; 7; 7]%N
          = Some s' ∧
        StaticStringBase.op_eq_pointer s' (literal "abcd" ++ SENTINEL :: [])
          = Some (bool_decide (length (literal "abcd") < 4)) ∧
        StaticStringBase.op_ne_pointer s' (literal "abcd" ++ SENTINEL :: [])
          = Some (negb (bool_decide (length (literal "abcd") < 4))).
Proof.
  apply (equals_after_assign 4).
  - unfold SIZE_MAX, SIZE_BITS. lia.
  - lia.
  - reflexivity.
  - by repeat constructor.
Defined.

Lemma filter_all_below (text : list value_type) :
  Forall (λ c, (c < 128)%N) (List.filter IsASCII text).
Proof.
  induction text as [|c text IH]; simpl; [constructor|].
  destruct (IsASCII c) eqn:Hc; [|done].
  constructor; [|done]. unfold IsASCII in Hc. by apply N.ltb_lt.
Qed.

(** X18.  [CleanASCII] eliminates all non-ASCII characters and nothing
    else: on a buffer that satisfies the invariants it returns one that
    satisfies them, whose content has no element of value 128 or more, is
    not longer than before, and keeps every ASCII element in its order. *)
Theorem CleanASCII_eliminates (max : nat) (s : list value_type) :
  invariant max s →
  ∃ s', StaticStringBase.CleanASCII s = Some s' ∧
        invariant max s' ∧
        Forall (λ c, (c < 128)%N) (content s') ∧
        length (content s') ≤ length (content s) ∧
        content s' = List.filter IsASCII (content s).
Proof.
  intros Hinv.
  pose proof (invariant_shape max s Hinv) as (Hlen & _ & Hl & _ & _).
  pose proof (List.filter_length_le IsASCII (content s)) as Hshort.
  eexists. split; [by apply (CleanASCII_result max)|].
  rewrite content_laid_down
    by apply filter_nonzero, content_nonzero.
  split; [|split; [apply filter_all_below|done]].
  subst max. apply invariant_laid_down. simpl. lia.
Qed.

Lemma CleanASCII_eliminates_witness :
  ∃ s', StaticStringBase.CleanASCII [97; 195; 169; 98; 0; 7]%N = Some s' ∧
        invariant 6 s' ∧
        Forall (λ c, (c < 128)%N) (content s') ∧
        length (content s') ≤ length (content [97; 195; 169; 98; 0; 7]%N) ∧
        content s'
          = List.filter IsASCII (content [97; 195; 169; 98; 0; 7]%N).
Proof.
  apply (CleanASCII_eliminates 6).
  split; [reflexivity|]. exists 4. repeat split. simpl. lia.
Defined.
